(** * SingleApplication: the private implementation, embedded and verified

    A shallow embedding of [singleapplication_p.cpp] / [singleapplication_p.h]:
    the shared-memory identity block ([InstancesInfo]), the election
    bookkeeping that mutates it, the server-side connection state machine,
    the client-side connector and the derivation of the rendezvous name.

    Conventions.
    - A fixed-width C++ integer is a [Z] together with its wrap-around,
      written out where the code stores into the narrower type.
    - A [QByteArray] is a [list byte]; a [QString] is the list of its bytes
      in the encoding the code converts it to (Latin-1 for the name sent in
      the handshake, UTF-8 for what is hashed).
    - [qChecksum] and [QCryptographicHash] of the Qt library are parameters,
      given as type classes; [crc16] is an instance of the first for
      evaluating the model.
    - A pointer to a socket is a key of a finite map; a null pointer is
      [None].
    - What the process cannot decide (random draws, the outcome and the
      duration of blocking calls) is read from a script carried in the
      state.

    The definitions come first, in the order of the source; the lemmas and
    theorems follow. *)

From Stdlib Require Import ZArith Lia List Bool.
From Stdlib Require Import Strings.Byte.
From stdpp Require Import base option list gmap.

Local Open Scope Z_scope.

(** ** Bytes and fixed-width integers *)

Definition byte_to_Z (b : byte) : Z := Z.of_N (Byte.to_N b).

Definition Z_to_byte (z : Z) : byte :=
  match Byte.of_N (Z.to_N (z mod 256)) with
  | Some b => b
  | None => x00
  end.

(** Conversions to the unsigned and signed C++ integer types. *)
Definition quint16 (z : Z) : Z := z mod 2^16.
Definition quint32 (z : Z) : Z := z mod 2^32.
Definition quint64 (z : Z) : Z := z mod 2^64.
Definition qint64 (z : Z) : Z := (z + 2^63) mod 2^64 - 2^63.
Definition int (z : Z) : Z := (z + 2^31) mod 2^32 - 2^31.

(** [n] bytes of [v], most significant first: the byte order of a
    [QDataStream] (big-endian by default). *)
Fixpoint toBigEndian (n : nat) (v : Z) : list byte :=
  match n with
  | O => []
  | S k => Z_to_byte (v / 256 ^ Z.of_nat k) :: toBigEndian k v
  end.

Definition fromBigEndian (l : list byte) : Z :=
  fold_left (fun acc b => acc * 256 + byte_to_Z b) l 0.

(** [n] bytes of [v], least significant first: the in-memory order of the
    identity block on the little-endian hosts modelled here. *)
Fixpoint toLittleEndian (n : nat) (v : Z) : list byte :=
  match n with
  | O => []
  | S k => Z_to_byte v :: toLittleEndian k (v / 256)
  end.
(** ** The identity block ([struct InstancesInfo]) *)

(** The struct as laid out in the shared memory region.  [padding] holds the
    three alignment bytes between [primary] and [secondary]; [primaryUser] is
    the [char[128]] buffer; [checksum] is the last field. *)
Record InstancesInfo := mkInstancesInfo {
  primary : bool;
  padding : list byte;
  secondary : Z;
  primaryPid : Z;
  primaryUser : list byte;
  checksum : Z
}.

Definition set_primary (v : bool) (inst : InstancesInfo) : InstancesInfo :=
  mkInstancesInfo v (padding inst) (secondary inst) (primaryPid inst)
                  (primaryUser inst) (checksum inst).
Definition set_secondary (v : Z) (inst : InstancesInfo) : InstancesInfo :=
  mkInstancesInfo (primary inst) (padding inst) v (primaryPid inst)
                  (primaryUser inst) (checksum inst).
Definition set_primaryPid (v : Z) (inst : InstancesInfo) : InstancesInfo :=
  mkInstancesInfo (primary inst) (padding inst) (secondary inst) v
                  (primaryUser inst) (checksum inst).
Definition set_primaryUser (v : list byte) (inst : InstancesInfo) : InstancesInfo :=
  mkInstancesInfo (primary inst) (padding inst) (secondary inst) (primaryPid inst)
                  v (checksum inst).
Definition set_checksum (v : Z) (inst : InstancesInfo) : InstancesInfo :=
  mkInstancesInfo (primary inst) (padding inst) (secondary inst) (primaryPid inst)
                  (primaryUser inst) v.

(** The bytes of the region before [offsetof(InstancesInfo, checksum)]. *)
Definition blockBytes (inst : InstancesInfo) : list byte :=
  [if primary inst then x01 else x00] ++ padding inst
  ++ toLittleEndian 4 (secondary inst)
  ++ toLittleEndian 8 (primaryPid inst)
  ++ primaryUser inst.

(** A [char] buffer read as a C string: the bytes before the first NUL. *)
Fixpoint cstring (buf : list byte) : list byte :=
  match buf with
  | [] => []
  | b :: rest => if Byte.eqb b x00 then [] else b :: cstring rest
  end.

(** [qstrncpy(dst, src, len)]: at most [len - 1] characters of [src], the
    rest of the [len] bytes of [dst] set to NUL (as [strncpy] leaves them;
    no property below looks past the first NUL). *)
Definition qstrncpy (src : list byte) (len : nat) : list byte :=
  let s := take (len - 1) (cstring src) in
  s ++ replicate (len - length s) x00.

(** What [~SingleApplicationPrivate] and its callees do, in order. *)
Inductive Field := FPrimary | FSecondary | FPrimaryPid | FPrimaryUser | FChecksum.

Inductive Effect :=
| SocketClose | SocketDelete
| MemoryLock | MemoryUnlock | MemoryDelete
| ServerClose | ServerDelete
| Store (f : Field).

(** The members of [SingleApplicationPrivate] the destructor looks at.  A
    null pointer is [None] (or [false] where the pointee has no contents in
    the model); [memory] carries the contents of the attached region. *)
Record Process := mkProcess {
  socket : bool;
  memory : option InstancesInfo;
  server : bool
}.

(** Is every store to the block, and the shutdown of the listener, made
    between [MemoryLock] and [MemoryUnlock]? *)
Fixpoint under_lock (held : bool) (log : list Effect) : bool :=
  match log with
  | [] => true
  | MemoryLock :: rest => under_lock true rest
  | MemoryUnlock :: rest => under_lock false rest
  | (Store _ | ServerClose | ServerDelete) :: rest => held && under_lock held rest
  | _ :: rest => under_lock held rest
  end.

(** The operations of the system that touch the identity block: the three
    election steps and the destructor (of a process with or without a
    client socket and a listener). *)
Inductive BlockOp :=
| OpInitializeMemoryBlock
| OpStartPrimary (pid : Z) (user : list byte)
| OpStartSecondary
| OpDestroy (hasSocket hasServer : bool).

(** [qChecksum] of the Qt library: a 16-bit checksum of a byte range. *)
Class QChecksum := qChecksum : list byte -> Z.

Section Block.

Context `{QChecksum}.

Definition blockChecksum (inst : InstancesInfo) : Z :=
  quint16 (qChecksum (blockBytes inst)).

Definition initializeMemoryBlock (inst : InstancesInfo) : InstancesInfo :=
  let inst := set_primary false inst in
  let inst := set_secondary 0 inst in
  let inst := set_primaryPid (-1) inst in
  let inst := set_primaryUser (<[0%nat := x00]> (primaryUser inst)) inst in
  set_checksum (blockChecksum inst) inst.

(** The part of [startPrimary] that writes the block and
    [instanceNumber]; [pid] is [QCoreApplication::applicationPid()] and
    [user] the UTF-8 bytes of [getUsername()]. *)
Definition startPrimary (pid : Z) (user : list byte) (inst : InstancesInfo)
  : InstancesInfo * Z :=
  let inst := set_primary true inst in
  let inst := set_primaryPid (qint64 pid) inst in
  let inst := set_primaryUser (qstrncpy user 128) inst in
  let inst := set_checksum (blockChecksum inst) inst in
  (inst, 0).

(** Returns the block and the new [instanceNumber]. *)
Definition startSecondary (inst : InstancesInfo) : InstancesInfo * Z :=
  let inst := set_secondary (quint32 (secondary inst + 1)) inst in
  let inst := set_checksum (blockChecksum inst) inst in
  (inst, secondary inst).

(** The stores of the destructor's [if (server != nullptr)] branch. *)
Definition clearPrimary (inst : InstancesInfo) : InstancesInfo :=
  let inst := set_primary false inst in
  let inst := set_primaryPid (-1) inst in
  let inst := set_primaryUser (<[0%nat := x00]> (primaryUser inst)) inst in
  set_checksum (blockChecksum inst) inst.

(** [~SingleApplicationPrivate]: the contents of the region afterwards
    (when one was attached) and the effects in program order. *)
Definition destructor (p : Process) : option InstancesInfo * list Effect :=
  let closing := if socket p then [SocketClose; SocketDelete] else [] in
  match memory p with
  | None => (None, closing)
  | Some inst =>
      let '(inst', stores) :=
        if server p
        then (clearPrimary inst,
              [ServerClose; ServerDelete; Store FPrimary; Store FPrimaryPid;
               Store FPrimaryUser; Store FChecksum])
        else (inst, [])
      in (Some inst', closing ++ [MemoryLock] ++ stores ++ [MemoryUnlock; MemoryDelete])
  end.

(** The block after each operation. *)
Definition applyOp (op : BlockOp) (inst : InstancesInfo) : InstancesInfo :=
  match op with
  | OpInitializeMemoryBlock => initializeMemoryBlock inst
  | OpStartPrimary pid user => fst (startPrimary pid user inst)
  | OpStartSecondary => fst (startSecondary inst)
  | OpDestroy hasSocket hasServer =>
      match fst (destructor (mkProcess hasSocket (Some inst) hasServer)) with
      | Some inst' => inst'
      | None => inst
      end
  end.

End Block.

(** A sample instance for [qChecksum]: the CRC-16 of ISO 3309 computed four
    bits at a time, used to evaluate the model on concrete inputs. *)
Definition crc_tbl : list Z :=
  [0x0000; 0x1081; 0x2102; 0x3183; 0x4204; 0x5285; 0x6306; 0x7387;
   0x8408; 0x9489; 0xa50a; 0xb58b; 0xc60c; 0xd68d; 0xe70e; 0xf78f].

Definition crc_step (crc c : Z) : Z :=
  Z.lxor (Z.land (Z.shiftr crc 4) 0x0fff)
         (nth (Z.to_nat (Z.land (Z.lxor crc c) 15)) crc_tbl 0).

Definition crc16 (data : list byte) : Z :=
  let crc := fold_left (fun crc b =>
                          let c := byte_to_Z b in
                          crc_step (crc_step crc c) (Z.shiftr c 4))
                       data 0xffff in
  Z.land (Z.lxor crc 0xffff) 0xffff.

Definition crc16_checksum : QChecksum := crc16.

(** A block as a running primary leaves it, with the secondary counter at
    the largest value of a [quint32]. *)
Definition fullBlock : InstancesInfo :=
  mkInstancesInfo true [x00; x00; x00] 4294967295 4242
                  (qstrncpy [x72; x6f; x6f; x74] 128) 0.

(** A block of a running primary after three secondaries. *)
Definition sampleBlock : InstancesInfo :=
  mkInstancesInfo true [x00; x00; x00] 3 4242 (qstrncpy [x72; x6f; x6f; x74] 128) 0.

(** The accessors [primaryPid()] and [primaryUser()]: the field read between
    locking and unlocking the region.  [primaryUser] returns the bytes it
    hands to [QString::fromUtf8], the C string in the buffer. *)
Module Accessors.

Definition primaryPid (inst : InstancesInfo) : Z * list Effect :=
  let 'mkInstancesInfo _ _ _ pid _ _ := inst in
  (pid, [MemoryLock; MemoryUnlock]).

Definition primaryUser (inst : InstancesInfo) : list byte * list Effect :=
  let 'mkInstancesInfo _ _ _ _ username _ := inst in
  (cstring username, [MemoryLock; MemoryUnlock]).

End Accessors.

Section Election.

Context `{QChecksum}.

(** [k] secondaries running [startSecondary] one after the other on the
    same region: the block after the last, and their instance numbers in
    the order they ran. *)
Fixpoint startSecondaries (k : nat) (inst : InstancesInfo) : InstancesInfo * list Z :=
  match k with
  | O => (inst, [])
  | S k =>
      let '(inst, instanceNumber) := startSecondary inst in
      let '(inst, rest) := startSecondaries k inst in
      (inst, instanceNumber :: rest)
  end.

End Election.

(** ** [QDataStream]: the wire format of the frames *)

#[global] Instance byte_eq_dec : EqDecision byte := Byte.byte_eq_dec.

(** [enum class ConnectionType : quint8]. *)
Inductive ConnectionType :=
| InvalidConnection | NewInstance | SecondaryInstance | Reconnect.

Definition connectionTypeValue (t : ConnectionType) : Z :=
  match t with
  | InvalidConnection => 0
  | NewInstance => 1
  | SecondaryInstance => 2
  | Reconnect => 3
  end.

(** The bits of [SingleApplication::Options] the private class tests with
    [options & Mode::...].  The enumerators are declared in
    [singleapplication.h]; the model keeps one boolean per bit. *)
Record Options := mkOptions {
  User : bool;
  SecondaryNotification : bool;
  ExcludeAppVersion : bool;
  ExcludeAppPath : bool
}.

(** [stream << ba] for a non-null [QByteArray]: a 32-bit length, then the
    bytes. *)
Definition write_QByteArray (ba : list byte) : list byte :=
  toBigEndian 4 (Z.of_nat (length ba)) ++ ba.

(** A reading stream over a byte array: the bytes not yet read and the
    status, which once set to [ReadPastEnd] stays. *)
Inductive Status := Ok | ReadPastEnd.

Record QDataStream := mkStream {
  device : list byte;
  status : Status
}.

(** [n] bytes from the device; a short read consumes what is there and
    sets [ReadPastEnd]. *)
Definition readBlock (n : nat) (ds : QDataStream) : option (list byte) * QDataStream :=
  if (n <=? length (device ds))%nat
  then (Some (take n (device ds)), mkStream (drop n (device ds)) (status ds))
  else (None, mkStream [] ReadPastEnd).

(** [stream >> i] for an unsigned integer of [n] bytes: the value read, or
    0 after a short read. *)
Definition read_uint (n : nat) (ds : QDataStream) : Z * QDataStream :=
  match readBlock n ds with
  | (Some bs, ds') => (fromBigEndian bs, ds')
  | (None, ds') => (0, ds')
  end.

(** [stream >> ba]: the length, then that many bytes; the array is left
    empty for the null marker and after a short read. *)
Definition read_QByteArray (ds : QDataStream) : list byte * QDataStream :=
  let '(len, ds) := read_uint 4 ds in
  if len =? 0xffffffff then ([], ds)
  else match readBlock (Z.to_nat len) ds with
       | (Some bs, ds') => (bs, ds')
       | (None, ds') => ([], ds')
       end.

(** The header frame of [writeConfirmedMessage]:
    [headerStream << static_cast<quint64>(msg.length())]. *)
Definition headerFrame (msg : list byte) : list byte :=
  toBigEndian 8 (quint64 (Z.of_nat (length msg))).

Section Wire.

Context `{QChecksum}.

(** The initialisation message [connectToPrimary] builds: the four
    [writeStream << ...] in order.  [name] is [blockServerName.toLatin1()]. *)
Definition initMessage (name : list byte) (connectionType : ConnectionType)
    (instanceNumber : Z) : list byte :=
  let initMsg := write_QByteArray name in
  let initMsg := initMsg ++ toBigEndian 1 (connectionTypeValue connectionType) in
  let initMsg := initMsg ++ toBigEndian 4 instanceNumber in
  let checksum :=
    quint16 (qChecksum (take (Z.to_nat (quint32 (Z.of_nat (length initMsg)))) initMsg)) in
  initMsg ++ toBigEndian 2 checksum.

(** The bytes of the initialisation message before its checksum. *)
Definition initPrefix (name : list byte) (connectionType : ConnectionType)
    (instanceNumber : Z) : list byte :=
  (write_QByteArray name ++ toBigEndian 1 (connectionTypeValue connectionType))
  ++ toBigEndian 4 instanceNumber.

(** The layout of the handshake body in the words of the specification:
    the name as raw bytes, one byte of connection type, four bytes of
    instance identifier, and two bytes of checksum over what precedes. *)
Definition specInitLayout (name : list byte) (connectionType : ConnectionType)
    (instanceNumber : Z) : list byte :=
  let preceding :=
    name ++ toBigEndian 1 (connectionTypeValue connectionType)
    ++ toBigEndian 4 instanceNumber in
  preceding ++ toBigEndian 2 (quint16 (qChecksum preceding)).

End Wire.

(** ** The listener: the primary's side of a connection *)

Module Listener.

(** [enum class ConnectionStage : quint8]. *)
Inductive ConnectionStage :=
| StageInitHeader | StageInitBody | StageConnectedHeader | StageConnectedBody.

(** [struct ConnectionInfo] with its default member initialisers. *)
Record ConnectionInfo := mkInfo {
  msgLen : Z;
  instanceId : Z;
  stage : ConnectionStage
}.

Definition defaultInfo : ConnectionInfo := mkInfo 0 0 StageInitHeader.

(** An accepted [QLocalSocket]: the bytes received and not yet read, the
    bytes written to the peer, and whether the device is open. *)
Record QLocalSocket := mkSocket {
  readBuffer : list byte;
  written : list byte;
  isOpen : bool
}.

(** The signals of [SingleApplication] raised to the application. *)
Inductive Signal :=
| instanceStarted
| receivedMessage (instanceId : Z) (message : list byte).

(** The members the listener's slots use, the sockets they are called on
    (keyed by the pointer) and the signals emitted so far. *)
Record Server := mkServer {
  blockServerName : list byte;
  options : Options;
  connectionMap : gmap nat ConnectionInfo;
  sockets : gmap nat QLocalSocket;
  emitted : list Signal
}.

Definition set_connectionMap (m : gmap nat ConnectionInfo) (d : Server) : Server :=
  mkServer (blockServerName d) (options d) m (sockets d) (emitted d).
Definition set_sockets (m : gmap nat QLocalSocket) (d : Server) : Server :=
  mkServer (blockServerName d) (options d) (connectionMap d) m (emitted d).
Definition emit (s : Signal) (d : Server) : Server :=
  mkServer (blockServerName d) (options d) (connectionMap d) (sockets d) (emitted d ++ [s]).

(** [connectionMap.contains(sock)]. *)
Definition contains (sock : nat) (d : Server) : bool :=
  match connectionMap d !! sock with Some _ => true | None => false end.

(** [connectionMap[sock]]: the entry, default-constructed and inserted
    when there was none. *)
Definition index (sock : nat) (d : Server) : Server :=
  match connectionMap d !! sock with
  | Some _ => d
  | None => set_connectionMap (<[sock := defaultInfo]> (connectionMap d)) d
  end.

Definition info (sock : nat) (d : Server) : ConnectionInfo :=
  default defaultInfo (connectionMap d !! sock).

Definition set_info (sock : nat) (i : ConnectionInfo) (d : Server) : Server :=
  set_connectionMap (<[sock := i]> (connectionMap d)) d.

(** [sock->bytesAvailable()]. *)
Definition bytesAvailable (sock : nat) (d : Server) : Z :=
  match sockets d !! sock with
  | Some s => Z.of_nat (length (readBuffer s))
  | None => 0
  end.

(** [sock->read(n)] through a [QDataStream], for [n] bytes known to be
    available. *)
Definition read (n : nat) (sock : nat) (d : Server) : list byte * Server :=
  match sockets d !! sock with
  | Some s =>
      (take n (readBuffer s),
       set_sockets (<[sock := mkSocket (drop n (readBuffer s)) (written s) (isOpen s)]>
                      (sockets d)) d)
  | None => ([], d)
  end.

(** [sock->readAll()]. *)
Definition readAll (sock : nat) (d : Server) : list byte * Server :=
  match sockets d !! sock with
  | Some s =>
      (readBuffer s,
       set_sockets (<[sock := mkSocket [] (written s) (isOpen s)]> (sockets d)) d)
  | None => ([], d)
  end.

(** [writeAck]: [sock->putChar('\n')]. *)
Definition writeAck (sock : nat) (d : Server) : Server :=
  match sockets d !! sock with
  | Some s =>
      set_sockets (<[sock := mkSocket (readBuffer s) (written s ++ [x0a]) (isOpen s)]>
                     (sockets d)) d
  | None => d
  end.

Definition readMessageHeader (sock : nat) (nextStage : ConnectionStage) (d : Server)
  : Server :=
  if negb (contains sock d) then d
  else if bytesAvailable sock d <? 8 then d
  else
    let '(bytes, d) := read 8 sock d in
    let msgLen := fromBigEndian bytes in
    let d := index sock d in
    let i := info sock d in
    let d := set_info sock (mkInfo (qint64 msgLen) (instanceId i) nextStage) d in
    writeAck sock d.

Definition isFrameComplete (sock : nat) (d : Server) : bool * Server :=
  if negb (contains sock d) then (false, d)
  else
    let d := index sock d in
    if bytesAvailable sock d <? qint64 (msgLen (info sock d)) then (false, d)
    else (true, d).

Definition slotDataAvailable (dataSocket : nat) (instanceId : Z) (d : Server) : Server :=
  let '(complete, d) := isFrameComplete dataSocket d in
  if negb complete then d
  else
    let '(message, d) := readAll dataSocket d in
    let d := emit (receivedMessage instanceId message) d in
    let d := writeAck dataSocket d in
    let d := index dataSocket d in
    let i := info dataSocket d in
    set_info dataSocket (mkInfo (msgLen i) (Listener.instanceId i) StageConnectedHeader) d.

Definition slotClientConnectionClosed (closedSocket : nat) (instanceId : Z) (d : Server)
  : Server :=
  if 0 <? bytesAvailable closedSocket d
  then slotDataAvailable closedSocket instanceId d
  else d.

(** The slot connected to [aboutToClose] in [slotConnectionEstablished]. *)
Definition onAboutToClose (sock : nat) (d : Server) : Server :=
  let d := index sock d in
  slotClientConnectionClosed sock (instanceId (info sock d)) d.

(** [sock->close()]: [aboutToClose] is emitted, then the device is closed
    and what was not read is dropped. *)
Definition close (sock : nat) (d : Server) : Server :=
  let d := onAboutToClose sock d in
  match sockets d !! sock with
  | Some s => set_sockets (<[sock := mkSocket [] (written s) false]> (sockets d)) d
  | None => d
  end.

(** *** Vocabulary for the properties *)

(** What the slots called for [sock] see and change: the name and the
    options, the socket's entry in the map, the socket and the signals
    emitted. *)
Definition conn (sock : nat) (n : list byte) (o : Options) (i : ConnectionInfo)
    (s : QLocalSocket) (e : list Signal) (d : Server) : Prop :=
  blockServerName d = n /\ options d = o /\
  connectionMap d !! sock = Some i /\ sockets d !! sock = Some s /\ emitted d = e.

(** The stage a header read moves on to. *)
Definition bodyStage (st : ConnectionStage) : ConnectionStage :=
  match st with
  | StageInitHeader | StageInitBody => StageInitBody
  | StageConnectedHeader | StageConnectedBody => StageConnectedBody
  end.

Definition awaitsHeader (st : ConnectionStage) : bool :=
  match st with
  | StageInitHeader | StageConnectedHeader => true
  | _ => false
  end.

(** Is the connection past its handshake? *)
Definition connected (st : ConnectionStage) : bool :=
  match st with
  | StageConnectedHeader | StageConnectedBody => true
  | _ => false
  end.



Section WithChecksum.

Context `{QChecksum}.

(** The reads of [readInitMessageBody] from [readStream], in order, and the
    status of the stream after them. *)
Definition readInitMessage (msgBytes : list byte) : list byte * Z * Z * Z * Status :=
  let readStream := mkStream msgBytes Ok in
  let '(latin1Name, readStream) := read_QByteArray readStream in
  let '(connTypeVal, readStream) := read_uint 1 readStream in
  let '(instanceId, readStream) := read_uint 4 readStream in
  let '(msgChecksum, readStream) := read_uint 2 readStream in
  (latin1Name, connTypeVal, instanceId, msgChecksum, status readStream).

(** [qChecksum] over [msgBytes.length() - sizeof(quint16)] bytes, the count
    converted to [quint32].  A count past the end of the array (an array
    shorter than two bytes) takes the bytes there are. *)
Definition actualChecksum (msgBytes : list byte) : Z :=
  quint16 (qChecksum
             (take (Z.to_nat (quint32 (Z.of_nat (length msgBytes) - 2))) msgBytes)).

(** [QLatin1String(latin1Name) == blockServerName] is the equality of the
    bytes read with the Latin-1 bytes of the name. *)
Definition readInitMessageBody (sock : nat) (d : Server) : Server :=
  let '(complete, d) := isFrameComplete sock d in
  if negb complete then d
  else
    let '(msgBytes, d) := readAll sock d in
    let '(latin1Name, connTypeVal, instanceId, msgChecksum, streamStatus) :=
      readInitMessage msgBytes in
    let isValid :=
      match streamStatus with Ok => true | ReadPastEnd => false end
      && bool_decide (latin1Name = blockServerName d)
      && (msgChecksum =? actualChecksum msgBytes) in
    if negb isValid then close sock d
    else
      let d := index sock d in
      let i := info sock d in
      let d := set_info sock (mkInfo (msgLen i) instanceId StageConnectedHeader) d in
      let d :=
        if (connTypeVal =? connectionTypeValue NewInstance)
           || ((connTypeVal =? connectionTypeValue SecondaryInstance)
               && SecondaryNotification (options d))
        then emit instanceStarted d
        else d in
      writeAck sock d.

(** The slot connected to [readyRead] in [slotConnectionEstablished]. *)
Definition onReadyRead (sock : nat) (d : Server) : Server :=
  let d := index sock d in
  let i := info sock d in
  match stage i with
  | StageInitHeader => readMessageHeader sock StageInitBody d
  | StageInitBody => readInitMessageBody sock d
  | StageConnectedHeader => readMessageHeader sock StageConnectedBody d
  | StageConnectedBody => slotDataAvailable sock (instanceId i) d
  end.

(** [slotConnectionEstablished] for the socket [server->nextPendingConnection()]
    returned: a fresh, open socket and a default entry in the map. *)
Definition slotConnectionEstablished (nextConnSocket : nat) (d : Server) : Server :=
  let d := set_sockets (<[nextConnSocket := mkSocket [] [] true]> (sockets d)) d in
  set_info nextConnSocket defaultInfo d.

(** The slot connected to [destroyed]. *)
Definition onDestroyed (sock : nat) (d : Server) : Server :=
  set_connectionMap (delete sock (connectionMap d)) d.

(** Bytes arrive on an open socket: they are appended to what is unread
    and [readyRead] is emitted.  A closed socket receives nothing. *)
Definition arrive (sock : nat) (bytes : list byte) (d : Server) : Server :=
  match sockets d !! sock with
  | Some s =>
      if isOpen s
      then onReadyRead sock
             (set_sockets (<[sock := mkSocket (readBuffer s ++ bytes) (written s) true]>
                             (sockets d)) d)
      else d
  | None => d
  end.

(** A sequence of arrivals on one socket, [readyRead] after each. *)
Definition arrivals (sock : nat) (chunks : list (list byte)) (d : Server) : Server :=
  fold_left (fun d bytes => arrive sock bytes d) chunks d.

(** Does the listener raise [instanceStarted] for this connection type? *)
Definition notifies (o : Options) (connTypeVal : Z) : bool :=
  (connTypeVal =? connectionTypeValue NewInstance)
  || ((connTypeVal =? connectionTypeValue SecondaryInstance) && SecondaryNotification o).

(** The test [isValid] of [readInitMessageBody]. *)
Definition isValid (name msgBytes : list byte) : bool :=
  let '(latin1Name, _, _, msgChecksum, streamStatus) := readInitMessage msgBytes in
  match streamStatus with Ok => true | ReadPastEnd => false end
  && bool_decide (latin1Name = name)
  && (msgChecksum =? actualChecksum msgBytes).

(** The bytes written to the peer of [sock]: one [x0a] per acknowledgement. *)
Definition acks (sock : nat) (d : Server) : option (list byte) :=
  written <$> sockets d !! sock.

End WithChecksum.

(** *** Sample connections *)

Definition sampleServer : Server :=
  mkServer [x61; x70; x70] (mkOptions false false false false) ∅ ∅ [].

Definition sampleInit : list byte :=
  initMessage (H := crc16_checksum) [x61; x70; x70] SecondaryInstance 7.

(** A connection of [sampleServer] past the handshake of instance 7. *)
Definition sampleConnected : Server :=
  arrivals (H := crc16_checksum) 0 [headerFrame sampleInit; sampleInit]
           (slotConnectionEstablished 0 sampleServer).



(** A connection of [sampleServer] on which three bytes arrived and no
    more. *)
Definition sampleStray : Server :=
  arrive (H := crc16_checksum) 0 [x01; x02; x03] (slotConnectionEstablished 0 sampleServer).

End Listener.

(** ** The connector: a secondary's side of the connection *)

Module Connector.

(** [QLocalSocket::LocalSocketState]. *)
Inductive LocalSocketState :=
| UnconnectedState | ConnectingState | ConnectedState | ClosingState.

#[global] Instance LocalSocketState_eq_dec : EqDecision LocalSocketState.
Proof. solve_decision. Defined.

(** The calls [connectToPrimary] and its callees make into Qt, each with
    its arguments and what came back: the milliseconds a blocking call took
    and the state or result it left. *)
Inductive Call :=
| Msleep (ms : Z)
| ConnectToServer (name : list byte) (after : LocalSocketState)
| WaitForConnected (msecs : Z) (took : Z) (after : LocalSocketState)
| Write (frame : list byte)
| WaitForReadyRead (msecs : Z) (took : Z) (ready : bool)
| Read (maxSize : Z).

(** What the process cannot decide: the draws of the random generator, the
    state each [connectToServer] leaves the socket in, and for each wait the
    time it takes and its outcome, or [None] for a wait that never returns. *)
Record World := mkWorld {
  draws : list Z;
  connects : list LocalSocketState;
  connectWaits : list (option (N * LocalSocketState));
  readWaits : list (option (N * bool))
}.

(** The members of [SingleApplicationPrivate] the connector uses ([socket]
    is [None] for a null pointer, else the state of the socket), the clock
    in milliseconds, the world still to come and the calls made so far. *)
Record Client := mkClient {
  socket : option LocalSocketState;
  instanceNumber : Z;
  blockServerName : list byte;
  clock : Z;
  world : World;
  calls : list Call
}.

(** A call returns a value and the state after it, never returns, or the
    model ran out of the fuel bounding its loop. *)
Inductive Result (A : Type) :=
| Returns (a : A) (c : Client)
| Blocks
| OutOfFuel.
Arguments Returns {A} a c.
Arguments Blocks {A}.
Arguments OutOfFuel {A}.

Definition bind {A B : Type} (r : Result A) (k : A -> Client -> Result B) : Result B :=
  match r with
  | Returns a c => k a c
  | Blocks => Blocks
  | OutOfFuel => OutOfFuel
  end.

Definition state (c : Client) : LocalSocketState :=
  default UnconnectedState (socket c).

(** [randomSleep]: [QThread::msleep(QRandomGenerator::global()->bounded(8u, 18u))]. *)
Definition randomSleep (c : Client) : Client :=
  let w := world c in
  let ms := 8 + hd 0 (draws w) mod 10 in
  mkClient (socket c) (instanceNumber c) (blockServerName c) (clock c + ms)
           (mkWorld (tl (draws w)) (connects w) (connectWaits w) (readWaits w))
           (calls c ++ [Msleep ms]).

(** [socket->connectToServer(blockServerName)]. *)
Definition connectToServer (c : Client) : Client :=
  let w := world c in
  let after := hd UnconnectedState (connects w) in
  mkClient (Some after) (instanceNumber c) (blockServerName c) (clock c)
           (mkWorld (draws w) (tl (connects w)) (connectWaits w) (readWaits w))
           (calls c ++ [ConnectToServer (blockServerName c) after]).

(** [socket->waitForConnected(msecs)]. *)
Definition waitForConnected (msecs : Z) (c : Client) : Result unit :=
  let w := world c in
  match hd None (connectWaits w) with
  | None => Blocks
  | Some (took, after) =>
      Returns tt
        (mkClient (Some after) (instanceNumber c) (blockServerName c)
                  (clock c + Z.of_N took)
                  (mkWorld (draws w) (connects w) (tl (connectWaits w)) (readWaits w))
                  (calls c ++ [WaitForConnected msecs (Z.of_N took) after]))
  end.

(** [socket->write(msg); socket->flush()]. *)
Definition write (msg : list byte) (c : Client) : Client :=
  mkClient (socket c) (instanceNumber c) (blockServerName c) (clock c) (world c)
           (calls c ++ [Write msg]).

(** [socket->waitForReadyRead(msecs)]. *)
Definition waitForReadyRead (msecs : Z) (c : Client) : Result bool :=
  let w := world c in
  match hd None (readWaits w) with
  | None => Blocks
  | Some (took, ready) =>
      Returns ready
        (mkClient (socket c) (instanceNumber c) (blockServerName c)
                  (clock c + Z.of_N took)
                  (mkWorld (draws w) (connects w) (connectWaits w) (tl (readWaits w)))
                  (calls c ++ [WaitForReadyRead msecs (Z.of_N took) ready]))
  end.

(** [socket->read(1)]. *)
Definition read (maxSize : Z) (c : Client) : Client :=
  mkClient (socket c) (instanceNumber c) (blockServerName c) (clock c) (world c)
           (calls c ++ [Read maxSize]).

Definition writeConfirmedFrame (msecs : Z) (msg : list byte) (c : Client) : Result bool :=
  let c := write msg c in
  bind (waitForReadyRead msecs c) (fun result c =>
    if result then Returns true (read 1 c)
    else Returns false c).

Definition writeConfirmedMessage (msecs : Z) (msg : list byte) (c : Client) : Result bool :=
  let start := clock c in
  let header := headerFrame msg in
  bind (writeConfirmedFrame (int (msecs - (clock c - start))) header c) (fun ok c =>
    if negb ok then Returns false c
    else writeConfirmedFrame (int (msecs - (clock c - start))) msg c).

(** The [while (true)] of [connectToPrimary], for a timer started at
    [start]: [true] for its [break], [false] for its [return false]. *)
Fixpoint connectLoop (fuel : nat) (msecs start : Z) (c : Client) : Result bool :=
  match fuel with
  | O => OutOfFuel
  | S fuel =>
      let c := randomSleep c in
      let c := if decide (state c <> ConnectingState) then connectToServer c else c in
      bind (if decide (state c = ConnectingState)
            then waitForConnected (int (msecs - (clock c - start))) c
            else Returns tt c) (fun _ c =>
        if decide (state c = ConnectedState) then Returns true c
        else if msecs <=? clock c - start then Returns false c
        else connectLoop fuel msecs start c)
  end.

Section WithChecksum.

Context `{QChecksum}.

Definition connectToPrimary (fuel : nat) (msecs : Z) (connectionType : ConnectionType)
    (c : Client) : Result bool :=
  let start := clock c in
  let c :=
    match socket c with
    | None => mkClient (Some UnconnectedState) (instanceNumber c) (blockServerName c)
                       (clock c) (world c) (calls c)
    | Some _ => c
    end in
  if decide (state c = ConnectedState) then Returns true c
  else
    bind (connectLoop fuel msecs start c) (fun connected c =>
      if negb connected then Returns false c
      else
        let initMsg := initMessage (blockServerName c) connectionType (instanceNumber c) in
        writeConfirmedMessage (int (msecs - (clock c - start))) initMsg c).

End WithChecksum.

(** *** Vocabulary for the properties *)

Definition isWrite (call : Call) : bool :=
  match call with Write _ => true | _ => false end.

(** The calls of one [writeConfirmedFrame]. *)
Definition frameCalls (msecs : Z) (msg : list byte) (took : Z) (ready : bool) : list Call :=
  [Write msg; WaitForReadyRead msecs took ready] ++ (if ready then [Read 1] else []).

(** The frames written among some calls, in order. *)
Definition framesWritten (cs : list Call) : list (list byte) :=
  omap (fun call => match call with Write frame => Some frame | _ => None end) cs.

(** *** Sample runs *)

(** A secondary, instance 7 of ["app"], whose socket is connected. *)
Definition connectedClient : Client :=
  mkClient (Some ConnectedState) 7 [x61; x70; x70] 0 (mkWorld [] [] [] []) [].

(** The same secondary before its first connection, in a world where the
    sleep lasts 10 ms, the connection succeeds at once and both
    acknowledgements are there within the millisecond. *)
Definition lateClient : Client :=
  mkClient None 7 [x61; x70; x70] 0
           (mkWorld [2] [ConnectedState] [] [Some (0%N, true); Some (0%N, true)]) [].

Definition lateClientAfter : Client :=
  Eval vm_compute in
    match connectToPrimary (H := crc16_checksum) 2 9 SecondaryInstance lateClient with
    | Returns _ c => c
    | _ => lateClient
    end.



(** The same, in a world where the second wait fails after 3 ms. *)
Definition unackedClient : Client :=
  mkClient (Some ConnectedState) 7 [x61; x70; x70] 0
           (mkWorld [] [] [] [Some (2%N, true); Some (3%N, false)]) [].

Definition unackedClientAfter : Client :=
  Eval vm_compute in
    match writeConfirmedMessage 100 [x68; x69] unackedClient with
    | Returns _ c => c
    | _ => unackedClient
    end.

End Connector.

(** ** The rendezvous name *)

Module Rendezvous.

(** [QCryptographicHash] with [QCryptographicHash::Sha256]: the digest of
    all the data added. *)
Class QCryptographicHash := sha256 : list byte -> list byte.

(** What [genBlockServerName] asks [QCoreApplication] and [getUsername]
    for, each string as its UTF-8 bytes. *)
Record Application := mkApplication {
  applicationName : list byte;
  organizationName : list byte;
  organizationDomain : list byte;
  applicationVersion : list byte;
  applicationFilePath : list byte;
  username : list byte
}.

(** The alphabet of RFC 2045 Base64. *)
Definition base64Alphabet : list byte :=
  (* A .. Z *)
  [x41; x42; x43; x44; x45; x46; x47; x48; x49; x4a; x4b; x4c; x4d;
   x4e; x4f; x50; x51; x52; x53; x54; x55; x56; x57; x58; x59; x5a]
  (* a .. z *)
  ++ [x61; x62; x63; x64; x65; x66; x67; x68; x69; x6a; x6b; x6c; x6d;
      x6e; x6f; x70; x71; x72; x73; x74; x75; x76; x77; x78; x79; x7a]
  (* 0 .. 9, +, / *)
  ++ [x30; x31; x32; x33; x34; x35; x36; x37; x38; x39; x2b; x2f].

Definition sextet (n : Z) : byte := nth (Z.to_nat n) base64Alphabet x00.

(** [QByteArray::toBase64()]: three bytes to four characters, the last
    group padded with ['=']. *)
Fixpoint toBase64 (l : list byte) : list byte :=
  match l with
  | [] => []
  | [a] =>
      let a := byte_to_Z a in
      [sextet (a / 4); sextet (a mod 4 * 16); x3d; x3d]
  | [a; b] =>
      let a := byte_to_Z a in
      let b := byte_to_Z b in
      [sextet (a / 4); sextet (a mod 4 * 16 + b / 16); sextet (b mod 16 * 4); x3d]
  | a :: b :: c :: rest =>
      let a := byte_to_Z a in
      let b := byte_to_Z b in
      let c := byte_to_Z c in
      sextet (a / 4) :: sextet (a mod 4 * 16 + b / 16)
      :: sextet (b mod 16 * 4 + c / 64) :: sextet (c mod 64) :: toBase64 rest
  end.

(** [.replace("/", "_")]. *)
Definition replaceSlash (l : list byte) : list byte :=
  map (fun b => if Byte.eqb b x2f then x5f else b) l.

(** The 17 characters of ["SingleApplication"]. *)
Definition singleApplication : list byte :=
  [x53; x69; x6e; x67; x6c; x65; x41; x70; x70;
   x6c; x69; x63; x61; x74; x69; x6f; x6e].

(** The data added to the hash, in the order of the [addData] calls (the
    branch for systems other than Windows, where the file path is added as
    it is). *)
Definition hashedData (app : Application) (appDataList : list (list byte))
    (options : Options) : list byte :=
  let appData := singleApplication in
  let appData := appData ++ applicationName app in
  let appData := appData ++ organizationName app in
  let appData := appData ++ organizationDomain app in
  let appData :=
    match appDataList with
    | [] => appData
    | _ => appData ++ concat appDataList
    end in
  let appData :=
    if negb (ExcludeAppVersion options) then appData ++ applicationVersion app
    else appData in
  let appData :=
    if negb (ExcludeAppPath options) then appData ++ applicationFilePath app
    else appData in
  if User options then appData ++ username app else appData.

Section WithHash.

Context `{QCryptographicHash}.

(** The value [genBlockServerName] assigns to [blockServerName]. *)
Definition genBlockServerName (app : Application) (appDataList : list (list byte))
    (options : Options) : list byte :=
  replaceSlash (toBase64 (sha256 (hashedData app appDataList options))).

End WithHash.

(** [addAppData]: [appDataList.push_back(data)]. *)
Definition addAppData (data : list byte) (appDataList : list (list byte))
  : list (list byte) :=
  appDataList ++ [data].

(** [appData]. *)
Definition appData (appDataList : list (list byte)) : list (list byte) := appDataList.

(** *** Vocabulary for the properties *)

(** The place of a character in the alphabet. *)
Fixpoint indexOf (b : byte) (l : list byte) : nat :=
  match l with
  | [] => O
  | x :: rest => if Byte.eqb x b then O else S (indexOf b rest)
  end.

(** Two applications whose names and organisations differ and run
    together to the same characters. *)
Definition appAbC : Application := mkApplication [x61; x62] [x63] [] [] [] [].
Definition appABc : Application := mkApplication [x61] [x62; x63] [] [] [] [].

End Rendezvous.

(** * Properties *)

(** ** Bytes and fixed-width integers *)

Lemma byte_to_Z_range (b : byte) : 0 <= byte_to_Z b < 256.
Proof.
  unfold byte_to_Z. pose proof (Byte.to_N_bounded b) as H.
  split; [apply N2Z.is_nonneg|].
  apply N2Z.inj_le in H. simpl in H. lia.
Qed.

Lemma Z_to_byte_to_Z (z : Z) : byte_to_Z (Z_to_byte z) = z mod 256.
Proof.
  unfold Z_to_byte, byte_to_Z.
  assert (Hr : 0 <= z mod 256 < 256) by (apply Z.mod_pos_bound; lia).
  destruct (Byte.of_N (Z.to_N (z mod 256))) as [b|] eqn:E.
  - apply Byte.to_of_N in E. rewrite E. rewrite Z2N.id; lia.
  - apply Byte.of_N_None_iff in E. lia.
Qed.

Lemma byte_to_Z_to_byte (b : byte) : Z_to_byte (byte_to_Z b) = b.
Proof.
  unfold Z_to_byte, byte_to_Z.
  pose proof (byte_to_Z_range b) as Hr. unfold byte_to_Z in Hr.
  rewrite Z.mod_small by lia.
  rewrite N2Z.id. now rewrite Byte.of_to_N.
Qed.

Lemma length_toBigEndian (n : nat) (v : Z) : length (toBigEndian n v) = n.
Proof. induction n as [|k IH]; simpl; [reflexivity | now rewrite IH]. Qed.

Lemma length_toLittleEndian (n : nat) (v : Z) : length (toLittleEndian n v) = n.
Proof.
  revert v. induction n as [|k IH]; intros v; simpl; [reflexivity | now rewrite IH].
Qed.

Lemma fold_fromBigEndian (l : list byte) (a : Z) :
  fold_left (fun acc b => acc * 256 + byte_to_Z b) l a
  = a * 256 ^ Z.of_nat (length l) + fromBigEndian l.
Proof.
  unfold fromBigEndian. revert a.
  induction l as [|b l IH]; intros a.
  - simpl. lia.
  - cbn [fold_left length]. rewrite IH. rewrite (IH (0 * 256 + byte_to_Z b)).
    rewrite Nat2Z.inj_succ, Z.pow_succ_r by lia. ring.
Qed.

Lemma fromBigEndian_cons (b : byte) (l : list byte) :
  fromBigEndian (b :: l) = byte_to_Z b * 256 ^ Z.of_nat (length l) + fromBigEndian l.
Proof.
  unfold fromBigEndian at 1. cbn [fold_left].
  rewrite fold_fromBigEndian. ring.
Qed.

Lemma fromBigEndian_range (l : list byte) :
  0 <= fromBigEndian l < 256 ^ Z.of_nat (length l).
Proof.
  induction l as [|b l IH].
  - cbn. lia.
  - rewrite fromBigEndian_cons. cbn [length].
    rewrite Nat2Z.inj_succ, Z.pow_succ_r by lia.
    pose proof (byte_to_Z_range b). nia.
Qed.

(** Reading back what [QDataStream] wrote gives the value in the width
    written. *)
Lemma fromBigEndian_toBigEndian (n : nat) (v : Z) :
  fromBigEndian (toBigEndian n v) = v mod 256 ^ Z.of_nat n.
Proof.
  induction n as [|k IH].
  - cbn. now rewrite Z.mod_1_r.
  - cbn [toBigEndian]. rewrite fromBigEndian_cons, IH, length_toBigEndian.
    rewrite Z_to_byte_to_Z.
    rewrite Nat2Z.inj_succ, Z.pow_succ_r by lia.
    assert (Hp : 0 < 256 ^ Z.of_nat k) by (apply Z.pow_pos_nonneg; lia).
    rewrite (Z.mul_comm 256), Z.rem_mul_r by lia. lia.
Qed.

(** ** The identity block *)

Example crc16_check :
  crc16 [x31; x32; x33; x34; x35; x36; x37; x38; x39] = 0x906e.
Proof. reflexivity. Qed.

Lemma cstring_cleared (buf : list byte) : cstring (<[0%nat := x00]> buf) = [].
Proof. destruct buf; reflexivity. Qed.

Section BlockFacts.

Context `{QChecksum}.

(** C6, amended.  [startSecondary] leaves the counter at the old value plus
    one, wrapping to 0 from 2^32 - 1, the checksum field equal to the
    checksum over the bytes of the new block before it, and the instance
    number equal to the new counter; no other field changes. *)
Theorem startSecondary_increments inst :
  0 <= secondary inst < 2 ^ 32 ->
  let '(inst', instanceNumber) := startSecondary inst in
  secondary inst' = (if secondary inst =? 2 ^ 32 - 1 then 0 else secondary inst + 1) /\
  checksum inst' = quint16 (qChecksum (blockBytes inst')) /\
  instanceNumber = secondary inst' /\
  primary inst' = primary inst /\ primaryPid inst' = primaryPid inst /\
  primaryUser inst' = primaryUser inst.
Proof.
  intros Hr. unfold startSecondary. cbn.
  repeat split. unfold quint32.
  destruct (Z.eqb_spec (secondary inst) (2 ^ 32 - 1)) as [Heq|Hne].
  - rewrite Heq. reflexivity.
  - apply Z.mod_small. lia.
Qed.

(** C7.  The destructor of a process that holds the region and a listener
    closes and deletes the listener and stores [primary = false],
    [primaryPid = -1] and an empty user name, then the checksum of the
    block so changed, all between locking and unlocking the region; the
    counter of secondaries is left as it was. *)
Theorem destructor_of_primary p inst :
  memory p = Some inst -> server p = true ->
  exists inst',
    destructor p
    = (Some inst',
       (if socket p then [SocketClose; SocketDelete] else [])
       ++ [MemoryLock; ServerClose; ServerDelete;
           Store FPrimary; Store FPrimaryPid; Store FPrimaryUser; Store FChecksum;
           MemoryUnlock; MemoryDelete]) /\
    under_lock false (snd (destructor p)) = true /\
    primary inst' = false /\
    primaryPid inst' = -1 /\
    cstring (primaryUser inst') = [] /\
    checksum inst' = quint16 (qChecksum (blockBytes inst')) /\
    secondary inst' = secondary inst.
Proof.
  intros Hm Hs. exists (clearPrimary inst).
  unfold destructor. rewrite Hm, Hs.
  split; [reflexivity|].
  split; [destruct (socket p); reflexivity|].
  cbn. repeat split. apply cstring_cleared.
Qed.

(** What each operation does to the counter of secondaries. *)
Lemma applyOp_secondary op inst :
  secondary (applyOp op inst)
  = match op with
    | OpInitializeMemoryBlock => 0
    | OpStartSecondary => quint32 (secondary inst + 1)
    | OpStartPrimary _ _ | OpDestroy _ _ => secondary inst
    end.
Proof.
  destruct op as [| pid user | | hasSocket hasServer]; try reflexivity.
  destruct hasSocket, hasServer; reflexivity.
Qed.

(** C8, amended.  The counter of secondaries is set to zero by
    [initializeMemoryBlock], incremented modulo 2^32 by [startSecondary]
    and left unchanged by [startPrimary] and by the destructor, of a
    secondary and of the primary alike; so it decreases only when a new
    primary initialises the block or the increment wraps from 2^32 - 1. *)
Theorem secondary_counter_steps op inst :
  0 <= secondary inst < 2 ^ 32 ->
  secondary (applyOp op inst)
  = match op with
    | OpInitializeMemoryBlock => 0
    | OpStartSecondary => if secondary inst =? 2 ^ 32 - 1 then 0 else secondary inst + 1
    | OpStartPrimary _ _ | OpDestroy _ _ => secondary inst
    end
  /\ (secondary (applyOp op inst) < secondary inst ->
      op = OpInitializeMemoryBlock
      \/ (op = OpStartSecondary /\ secondary inst = 2 ^ 32 - 1)).
Proof.
  intros Hr. rewrite applyOp_secondary.
  destruct op as [| pid user | | hasSocket hasServer]; (split; [|intros Hlt]);
    try reflexivity; try lia; try (left; reflexivity).
  - unfold quint32. destruct (Z.eqb_spec (secondary inst) (2 ^ 32 - 1)) as [Heq|Hne].
    + rewrite Heq. reflexivity.
    + apply Z.mod_small. lia.
  - right. split; [reflexivity|].
    unfold quint32 in Hlt.
    destruct (Z.eq_dec (secondary inst) (2 ^ 32 - 1)) as [Heq|Hne]; [assumption|].
    rewrite Z.mod_small in Hlt by lia. lia.
Qed.

End BlockFacts.

(** C6, as stated, at the largest counter: the new counter is 0, not the
    old value plus one. *)
Lemma startSecondary_wraps :
  secondary (fst (startSecondary (H := crc16_checksum) fullBlock)) = 0
  /\ secondary (fst (startSecondary (H := crc16_checksum) fullBlock))
     <> secondary fullBlock + 1.
Proof. split; [reflexivity | discriminate]. Qed.

(** C6, amended, on [sampleBlock]: the counter goes from 3 to 4. *)
Lemma startSecondary_increments_witness :
  let '(inst', instanceNumber) := startSecondary (H := crc16_checksum) sampleBlock in
  secondary inst' = (if secondary sampleBlock =? 2 ^ 32 - 1 then 0
                     else secondary sampleBlock + 1) /\
  checksum inst' = quint16 (crc16 (blockBytes inst')) /\
  instanceNumber = secondary inst' /\
  primary inst' = primary sampleBlock /\ primaryPid inst' = primaryPid sampleBlock /\
  primaryUser inst' = primaryUser sampleBlock.
Proof.
  apply (startSecondary_increments (H := crc16_checksum) sampleBlock).
  unfold sampleBlock. cbn [secondary]. lia.
Defined.

(** C7 on a primary without a client socket whose block is [sampleBlock]. *)
Lemma destructor_of_primary_witness :
  exists inst',
    destructor (H := crc16_checksum) (mkProcess false (Some sampleBlock) true)
    = (Some inst',
       [] ++ [MemoryLock; ServerClose; ServerDelete;
              Store FPrimary; Store FPrimaryPid; Store FPrimaryUser; Store FChecksum;
              MemoryUnlock; MemoryDelete]) /\
    under_lock false
      (snd (destructor (H := crc16_checksum) (mkProcess false (Some sampleBlock) true)))
    = true /\
    primary inst' = false /\
    primaryPid inst' = -1 /\
    cstring (primaryUser inst') = [] /\
    checksum inst' = quint16 (crc16 (blockBytes inst')) /\
    secondary inst' = secondary sampleBlock.
Proof.
  apply (destructor_of_primary (H := crc16_checksum)
           (mkProcess false (Some sampleBlock) true) sampleBlock); reflexivity.
Defined.

(** C8, as stated, at the largest counter: secondary election takes the
    counter from 2^32 - 1 down to 0. *)
Lemma startSecondary_decreases_counter :
  secondary (applyOp (H := crc16_checksum) OpStartSecondary fullBlock) = 0
  /\ secondary (applyOp (H := crc16_checksum) OpStartSecondary fullBlock)
     < secondary fullBlock.
Proof. split; [reflexivity | vm_compute; reflexivity]. Qed.

(** C8, amended, for secondary election on [sampleBlock]. *)
Lemma secondary_counter_steps_witness :
  secondary (applyOp (H := crc16_checksum) OpStartSecondary sampleBlock) = 4
  /\ (secondary (applyOp (H := crc16_checksum) OpStartSecondary sampleBlock)
      < secondary sampleBlock ->
      OpStartSecondary = OpInitializeMemoryBlock
      \/ (OpStartSecondary = OpStartSecondary /\ secondary sampleBlock = 2 ^ 32 - 1)).
Proof.
  apply (secondary_counter_steps (H := crc16_checksum) OpStartSecondary sampleBlock).
  unfold sampleBlock. cbn [secondary]. lia.
Defined.

(** *** Election in sequence, and reading the block back *)

Lemma cstring_no_nul (buf : list byte) : Forall (fun b => b <> x00) (cstring buf).
Proof.
  induction buf as [|b rest IH]; cbn [cstring]; [constructor|].
  destruct (Byte.eqb b x00) eqn:E; [constructor|].
  constructor; [|exact IH]. intros ->. discriminate.
Qed.

Lemma cstring_app_nul (s rest : list byte) :
  Forall (fun b => b <> x00) s -> cstring (s ++ x00 :: rest) = s.
Proof.
  induction s as [|b s IH]; intros Hs; [reflexivity|].
  apply Forall_cons in Hs as [Hb Hs]. cbn [app cstring].
  destruct (Byte.eqb b x00) eqn:E.
  - apply Byte.byte_dec_bl in E. contradiction.
  - now rewrite IH.
Qed.

Lemma length_qstrncpy (src : list byte) (len : nat) :
  (0 < len)%nat -> length (qstrncpy src len) = len.
Proof.
  intros Hlen. unfold qstrncpy. rewrite length_app, length_replicate, length_take. lia.
Qed.

(** The buffer [qstrncpy] fills reads back as the source cut at its first
    NUL and at [len - 1] bytes. *)
Lemma cstring_qstrncpy (src : list byte) (len : nat) :
  (0 < len)%nat -> cstring (qstrncpy src len) = take (len - 1) (cstring src).
Proof.
  intros Hlen. unfold qstrncpy.
  set (s := take (len - 1) (cstring src)).
  assert (Hs : (length s <= len - 1)%nat) by (subst s; rewrite length_take; lia).
  destruct (len - length s)%nat as [|m] eqn:E; [lia|].
  cbn [replicate]. apply cstring_app_nul.
  subst s. apply Forall_take, cstring_no_nul.
Qed.

Section ElectionFacts.

Context `{QChecksum}.

(** X1.  Secondaries that run [startSecondary] one after the other, from a
    counter that does not reach 2^32, get the instance numbers old + 1,
    old + 2, ... in the order they ran, so no two get the same; the counter
    ends at the last number, the checksum is that of the last block, and the
    fields of the primary are untouched. *)
Theorem secondaries_numbered k inst :
  0 <= secondary inst -> secondary inst + Z.of_nat k < 2 ^ 32 ->
  let '(inst', numbers) := startSecondaries k inst in
  numbers = seqZ (secondary inst + 1) (Z.of_nat k) /\
  NoDup numbers /\
  secondary inst' = secondary inst + Z.of_nat k /\
  ((0 < k)%nat -> checksum inst' = quint16 (qChecksum (blockBytes inst'))) /\
  primary inst' = primary inst /\ primaryPid inst' = primaryPid inst /\
  primaryUser inst' = primaryUser inst.
Proof.
  revert inst. induction k as [|k IH]; intros inst Hlo Hhi.
  - cbn. repeat split; try lia. constructor.
  - cbn [startSecondaries].
    destruct (startSecondary inst) as [inst1 n1] eqn:E1.
    assert (H1 : secondary inst1 = secondary inst + 1 /\ n1 = secondary inst + 1 /\
                 checksum inst1 = quint16 (qChecksum (blockBytes inst1)) /\
                 primary inst1 = primary inst /\ primaryPid inst1 = primaryPid inst /\
                 primaryUser inst1 = primaryUser inst).
    { unfold startSecondary in E1. inversion E1; subst; clear E1. cbn.
      unfold quint32. rewrite Z.mod_small by lia. repeat split. }
    destruct H1 as (Hs1 & Hn1 & Hck1 & Hp1 & Hpid1 & Hu1).
    specialize (IH inst1 ltac:(lia) ltac:(lia)).
    destruct (startSecondaries k inst1) as [inst' rest] eqn:E2.
    destruct IH as (Hrest & Hnd & Hs' & Hck' & Hp' & Hpid' & Hu').
    assert (Hnum : n1 :: rest = seqZ (secondary inst + 1) (Z.of_nat (S k))).
    { rewrite (seqZ_cons (secondary inst + 1) (Z.of_nat (S k))) by lia.
      rewrite Hn1, Hrest, Hs1. f_equal. f_equal; lia. }
    split; [exact Hnum|].
    split; [rewrite Hnum; apply NoDup_seqZ|].
    split; [lia|].
    split; [|repeat split; congruence].
    intros _. destruct k as [|k']; [|apply Hck'; lia].
    (* one secondary: the block is the one it left *)
    cbn in E2. inversion E2; subst inst' rest. exact Hck1.
Qed.

(** X2.  After [startPrimary] the block reads back as it was written: the
    process is primary with instance number 0, [primaryPid()] returns the
    process id and [primaryUser()] the user name cut at 127 bytes (and at a
    NUL inside it), each read between lock and unlock; the buffer is full
    length, the counter of secondaries is not reset, and the checksum is
    that of the new block. *)
Theorem startPrimary_read_back pid user inst :
  - 2 ^ 63 <= pid < 2 ^ 63 ->
  let '(inst', instanceNumber) := startPrimary pid user inst in
  instanceNumber = 0 /\
  primary inst' = true /\
  Accessors.primaryPid inst' = (pid, [MemoryLock; MemoryUnlock]) /\
  Accessors.primaryUser inst' = (take 127 (cstring user), [MemoryLock; MemoryUnlock]) /\
  length (primaryUser inst') = 128%nat /\
  secondary inst' = secondary inst /\
  checksum inst' = quint16 (qChecksum (blockBytes inst')).
Proof.
  intros Hpid. unfold startPrimary. cbn -[qstrncpy cstring take Z.pow].
  repeat split.
  - unfold qint64. rewrite Z.mod_small by lia. f_equal. lia.
  - f_equal. now rewrite cstring_qstrncpy by lia.
  - now rewrite length_qstrncpy by lia.
Qed.

End ElectionFacts.

(** X1 for three secondaries after the three of [sampleBlock]. *)
Lemma secondaries_numbered_witness :
  let '(inst', numbers) := startSecondaries (H := crc16_checksum) 3 sampleBlock in
  numbers = seqZ (secondary sampleBlock + 1) (Z.of_nat 3) /\
  NoDup numbers /\
  secondary inst' = secondary sampleBlock + Z.of_nat 3 /\
  ((0 < 3)%nat -> checksum inst' = quint16 (crc16 (blockBytes inst'))) /\
  primary inst' = primary sampleBlock /\ primaryPid inst' = primaryPid sampleBlock /\
  primaryUser inst' = primaryUser sampleBlock.
Proof.
  apply (secondaries_numbered (H := crc16_checksum) 3 sampleBlock);
    unfold sampleBlock; cbn [secondary]; lia.
Defined.

(** X2 for the process 4242 of the user ["root"]. *)
Lemma startPrimary_read_back_witness :
  let '(inst', instanceNumber) :=
    startPrimary (H := crc16_checksum) 4242 [x72; x6f; x6f; x74] sampleBlock in
  instanceNumber = 0 /\
  primary inst' = true /\
  Accessors.primaryPid inst' = (4242, [MemoryLock; MemoryUnlock]) /\
  Accessors.primaryUser inst'
  = (take 127 (cstring [x72; x6f; x6f; x74]), [MemoryLock; MemoryUnlock]) /\
  length (primaryUser inst') = 128%nat /\
  secondary inst' = secondary sampleBlock /\
  checksum inst' = quint16 (crc16 (blockBytes inst')).
Proof.
  apply (startPrimary_read_back (H := crc16_checksum) 4242 [x72; x6f; x6f; x74] sampleBlock).
  lia.
Defined.

(** ** The wire format: what [QDataStream] wrote is what it reads *)

Lemma readBlock_app (bs rest : list byte) (st : Status) :
  readBlock (length bs) (mkStream (bs ++ rest) st) = (Some bs, mkStream rest st).
Proof.
  unfold readBlock. cbn [device status].
  destruct (Nat.leb_spec (length bs) (length (bs ++ rest))) as [_|Hlt].
  - now rewrite take_app_length, drop_app_length.
  - rewrite length_app in Hlt. lia.
Qed.

Lemma read_uint_app (k : nat) (v : Z) (rest : list byte) (st : Status) :
  read_uint k (mkStream (toBigEndian k v ++ rest) st)
  = (v mod 256 ^ Z.of_nat k, mkStream rest st).
Proof.
  unfold read_uint.
  rewrite <- (length_toBigEndian k v) at 1.
  rewrite readBlock_app. now rewrite fromBigEndian_toBigEndian.
Qed.

Lemma read_QByteArray_app (ba rest : list byte) (st : Status) :
  Z.of_nat (length ba) < 0xffffffff ->
  read_QByteArray (mkStream (write_QByteArray ba ++ rest) st) = (ba, mkStream rest st).
Proof.
  intros Hlen. unfold read_QByteArray, write_QByteArray.
  rewrite <- app_assoc, read_uint_app.
  change (256 ^ Z.of_nat 4) with (2 ^ 32).
  rewrite Z.mod_small by lia.
  destruct (Z.eqb_spec (Z.of_nat (length ba)) 0xffffffff) as [Heq|_]; [lia|].
  rewrite Nat2Z.id, readBlock_app. reflexivity.
Qed.

Lemma length_headerFrame (msg : list byte) : length (headerFrame msg) = 8%nat.
Proof. apply length_toBigEndian. Qed.

(** The length the listener stores for a header is the length of the
    message, for every message a [QByteArray] can hold. *)
Lemma headerFrame_decode (msg : list byte) :
  Z.of_nat (length msg) < 2 ^ 63 ->
  qint64 (fromBigEndian (headerFrame msg)) = Z.of_nat (length msg).
Proof.
  intros Hlen. unfold headerFrame, qint64, quint64.
  rewrite fromBigEndian_toBigEndian.
  change (256 ^ Z.of_nat 8) with (2 ^ 64).
  rewrite Z.mod_mod by lia.
  rewrite (Z.mod_small (Z.of_nat (length msg))) by lia.
  rewrite Z.mod_small by lia. lia.
Qed.

Section WireFacts.

Context `{QChecksum}.

Lemma length_initPrefix name ct num :
  length (initPrefix name ct num) = (length name + 9)%nat.
Proof.
  unfold initPrefix, write_QByteArray.
  rewrite !length_app, !length_toBigEndian. lia.
Qed.

Lemma initMessage_eq name ct num :
  Z.of_nat (length name) + 9 < 2 ^ 32 ->
  initMessage name ct num
  = initPrefix name ct num
    ++ toBigEndian 2 (quint16 (qChecksum (initPrefix name ct num))).
Proof.
  intros Hlen. unfold initMessage. fold (initPrefix name ct num).
  unfold quint32. rewrite Z.mod_small by (rewrite length_initPrefix; lia).
  rewrite Nat2Z.id, take_ge by lia. reflexivity.
Qed.

Lemma length_initMessage name ct num :
  length (initMessage name ct num) = (length name + 11)%nat.
Proof.
  unfold initMessage. fold (initPrefix name ct num).
  rewrite length_app, length_toBigEndian, length_initPrefix. lia.
Qed.

Lemma connectionTypeValue_range ct : 0 <= connectionTypeValue ct < 4.
Proof. destruct ct; cbn; lia. Qed.

Lemma readInitMessage_initMessage name ct num :
  Z.of_nat (length name) + 9 < 2 ^ 32 ->
  Listener.readInitMessage (initMessage name ct num)
  = (name, connectionTypeValue ct, quint32 num,
     quint16 (qChecksum (initPrefix name ct num)), Ok).
Proof.
  intros Hlen. rewrite initMessage_eq by assumption.
  rewrite <- (app_nil_r (toBigEndian 2 _)).
  unfold Listener.readInitMessage, initPrefix.
  rewrite <- !app_assoc.
  rewrite read_QByteArray_app by lia.
  rewrite !read_uint_app. cbn [status].
  pose proof (connectionTypeValue_range ct).
  change (256 ^ Z.of_nat 1) with 256. change (256 ^ Z.of_nat 4) with (2 ^ 32).
  change (256 ^ Z.of_nat 2) with (2 ^ 16).
  rewrite (Z.mod_small (connectionTypeValue ct)) by lia.
  unfold quint16, quint32. rewrite Z.mod_mod by lia. reflexivity.
Qed.

Lemma actualChecksum_initMessage name ct num :
  Z.of_nat (length name) + 9 < 2 ^ 32 ->
  Listener.actualChecksum (initMessage name ct num)
  = quint16 (qChecksum (initPrefix name ct num)).
Proof.
  intros Hlen. unfold Listener.actualChecksum.
  rewrite length_initMessage. rewrite initMessage_eq by assumption.
  unfold quint32 at 1. rewrite Z.mod_small by lia.
  replace (Z.to_nat (Z.of_nat (length name + 11) - 2))
    with (length (initPrefix name ct num)) by (rewrite length_initPrefix; lia).
  now rewrite take_app_length.
Qed.

(** C5, amended.  The handshake body is, in order: the length of the name
    as four bytes, the name as raw bytes, one byte of connection type, four
    bytes of instance number, and two bytes of checksum computed over all
    the bytes before it, the length of the name among them. *)
Theorem initMessage_layout name connectionType instanceNumber :
  Z.of_nat (length name) + 9 < 2 ^ 32 ->
  let preceding :=
    toBigEndian 4 (Z.of_nat (length name)) ++ name
    ++ toBigEndian 1 (connectionTypeValue connectionType)
    ++ toBigEndian 4 instanceNumber in
  initMessage name connectionType instanceNumber
  = preceding ++ toBigEndian 2 (quint16 (qChecksum preceding)).
Proof.
  intros Hlen preceding. rewrite initMessage_eq by assumption.
  assert (Hp : initPrefix name connectionType instanceNumber = preceding).
  { unfold initPrefix, write_QByteArray, preceding.
    now rewrite <- !app_assoc. }
  now rewrite Hp.
Qed.

End WireFacts.

(** C5, as stated, at the name ["app"]: the body the connector builds is
    four bytes longer than the layout of the specification, and begins with
    the length of the name, not the name. *)
Lemma initMessage_has_length_prefix :
  initMessage (H := crc16_checksum) [x61; x70; x70] SecondaryInstance 7
  <> specInitLayout (H := crc16_checksum) [x61; x70; x70] SecondaryInstance 7
  /\ length (initMessage (H := crc16_checksum) [x61; x70; x70] SecondaryInstance 7) = 14%nat
  /\ length (specInitLayout (H := crc16_checksum) [x61; x70; x70] SecondaryInstance 7) = 10%nat
  /\ take 4 (initMessage (H := crc16_checksum) [x61; x70; x70] SecondaryInstance 7)
     = [x00; x00; x00; x03].
Proof.
  split; [vm_compute; discriminate|]. repeat split; vm_compute; reflexivity.
Qed.

(** C5, amended, for instance 7 of the name ["app"]. *)
Lemma initMessage_layout_witness :
  let preceding :=
    toBigEndian 4 (Z.of_nat (length [x61; x70; x70])) ++ [x61; x70; x70]
    ++ toBigEndian 1 (connectionTypeValue SecondaryInstance)
    ++ toBigEndian 4 7 in
  initMessage (H := crc16_checksum) [x61; x70; x70] SecondaryInstance 7
  = preceding ++ toBigEndian 2 (quint16 (crc16 preceding)).
Proof.
  apply (initMessage_layout (H := crc16_checksum) [x61; x70; x70] SecondaryInstance 7).
  vm_compute. reflexivity.
Defined.

(** *** Reading what was not written by [connectToPrimary] *)





Section ForeignBodies.

Context `{QChecksum}.

(** The body [connectToPrimary] builds, with any value in the place of the
    checksum: the reads give the value back in 16 bits, and the checksum
    recomputed is that of the bytes before it. *)
Lemma readInitMessage_with_checksum name ct num v :
  Z.of_nat (length name) + 9 < 2 ^ 32 ->
  Listener.readInitMessage (initPrefix name ct num ++ toBigEndian 2 v)
  = (name, connectionTypeValue ct, quint32 num, quint16 v, Ok).
Proof.
  intros Hlen.
  rewrite <- (app_nil_r (toBigEndian 2 _)).
  unfold Listener.readInitMessage, initPrefix.
  rewrite <- !app_assoc.
  rewrite read_QByteArray_app by lia.
  rewrite !read_uint_app. cbn [status].
  pose proof (connectionTypeValue_range ct).
  change (256 ^ Z.of_nat 1) with 256. change (256 ^ Z.of_nat 4) with (2 ^ 32).
  change (256 ^ Z.of_nat 2) with (2 ^ 16).
  rewrite (Z.mod_small (connectionTypeValue ct)) by lia. reflexivity.
Qed.

Lemma actualChecksum_with_checksum name ct num v :
  Z.of_nat (length name) + 9 < 2 ^ 32 ->
  Listener.actualChecksum (initPrefix name ct num ++ toBigEndian 2 v)
  = quint16 (qChecksum (initPrefix name ct num)).
Proof.
  intros Hlen. unfold Listener.actualChecksum.
  rewrite length_app, length_toBigEndian, length_initPrefix.
  unfold quint32 at 1. rewrite Z.mod_small by lia.
  replace (Z.to_nat (Z.of_nat (length name + 9 + 2) - 2))
    with (length (initPrefix name ct num)) by (rewrite length_initPrefix; lia).
  now rewrite take_app_length.
Qed.

End ForeignBodies.

(** ** The listener *)

Module ListenerFacts.
Import Listener.

Section Primitives.

Variables (n : list byte) (o : Options) (cm : gmap nat ConnectionInfo)
  (ss : gmap nat QLocalSocket) (e : list Signal) (sock : nat).

Lemma index_some i :
  cm !! sock = Some i -> index sock (mkServer n o cm ss e) = mkServer n o cm ss e.
Proof. intros Hi. unfold index. cbn. now rewrite Hi. Qed.

Lemma info_some i :
  cm !! sock = Some i -> info sock (mkServer n o cm ss e) = i.
Proof. intros Hi. unfold info. cbn. now rewrite Hi. Qed.

Lemma contains_some i :
  cm !! sock = Some i -> contains sock (mkServer n o cm ss e) = true.
Proof. intros Hi. unfold contains. cbn. now rewrite Hi. Qed.

Lemma bytesAvailable_some s :
  ss !! sock = Some s ->
  bytesAvailable sock (mkServer n o cm ss e) = Z.of_nat (length (readBuffer s)).
Proof. intros Hs. unfold bytesAvailable. cbn. now rewrite Hs. Qed.

Lemma read_some k s :
  ss !! sock = Some s ->
  read k sock (mkServer n o cm ss e)
  = (take k (readBuffer s),
     mkServer n o cm (<[sock := mkSocket (drop k (readBuffer s)) (written s) (isOpen s)]> ss) e).
Proof. intros Hs. unfold read. cbn. now rewrite Hs. Qed.

Lemma readAll_some s :
  ss !! sock = Some s ->
  readAll sock (mkServer n o cm ss e)
  = (readBuffer s, mkServer n o cm (<[sock := mkSocket [] (written s) (isOpen s)]> ss) e).
Proof. intros Hs. unfold readAll. cbn. now rewrite Hs. Qed.

Lemma writeAck_some s :
  ss !! sock = Some s ->
  writeAck sock (mkServer n o cm ss e)
  = mkServer n o cm (<[sock := mkSocket (readBuffer s) (written s ++ [x0a]) (isOpen s)]> ss) e.
Proof. intros Hs. unfold writeAck. cbn. now rewrite Hs. Qed.

Lemma set_info_eq i :
  set_info sock i (mkServer n o cm ss e) = mkServer n o (<[sock := i]> cm) ss e.
Proof. reflexivity. Qed.

Lemma emit_eq sig :
  emit sig (mkServer n o cm ss e) = mkServer n o cm ss (e ++ [sig]).
Proof. reflexivity. Qed.

End Primitives.

(** Rewrite with the primitives, looking the socket up in the maps at hand. *)
Ltac lookup_now := first [ eassumption | apply lookup_insert_eq ].
Ltac prim :=
  repeat first
    [ erewrite index_some by lookup_now
    | erewrite info_some by lookup_now
    | erewrite contains_some by lookup_now
    | erewrite bytesAvailable_some by lookup_now
    | erewrite read_some by lookup_now
    | erewrite readAll_some by lookup_now
    | erewrite writeAck_some by lookup_now
    | rewrite set_info_eq
    | rewrite emit_eq
    | rewrite insert_insert_eq
    | progress cbn [negb readBuffer written isOpen msgLen instanceId stage] ].

Lemma frame_incomplete n o cm ss e sock i s :
  cm !! sock = Some i -> ss !! sock = Some s ->
  Z.of_nat (length (readBuffer s)) < qint64 (msgLen i) ->
  isFrameComplete sock (mkServer n o cm ss e) = (false, mkServer n o cm ss e).
Proof.
  intros Hi Hs Hlen. unfold isFrameComplete. prim.
  destruct (Z.ltb_spec (Z.of_nat (length (readBuffer s))) (qint64 (msgLen i))); [reflexivity | lia].
Qed.

Lemma frame_complete n o cm ss e sock i s :
  cm !! sock = Some i -> ss !! sock = Some s ->
  qint64 (msgLen i) <= Z.of_nat (length (readBuffer s)) ->
  isFrameComplete sock (mkServer n o cm ss e) = (true, mkServer n o cm ss e).
Proof.
  intros Hi Hs Hlen. unfold isFrameComplete. prim.
  destruct (Z.ltb_spec (Z.of_nat (length (readBuffer s))) (qint64 (msgLen i))); [lia | reflexivity].
Qed.

Lemma readMessageHeader_short n o cm ss e sock i s next :
  cm !! sock = Some i -> ss !! sock = Some s ->
  Z.of_nat (length (readBuffer s)) < 8 ->
  readMessageHeader sock next (mkServer n o cm ss e) = mkServer n o cm ss e.
Proof.
  intros Hi Hs Hlen. unfold readMessageHeader. prim.
  destruct (Z.ltb_spec (Z.of_nat (length (readBuffer s))) 8); [reflexivity | lia].
Qed.

Lemma readMessageHeader_full n o cm ss e sock i s next :
  cm !! sock = Some i -> ss !! sock = Some s ->
  8 <= Z.of_nat (length (readBuffer s)) ->
  readMessageHeader sock next (mkServer n o cm ss e)
  = mkServer n o
      (<[sock := mkInfo (qint64 (fromBigEndian (take 8 (readBuffer s)))) (instanceId i) next]> cm)
      (<[sock := mkSocket (drop 8 (readBuffer s)) (written s ++ [x0a]) (isOpen s)]> ss) e.
Proof.
  intros Hi Hs Hlen. unfold readMessageHeader. prim.
  destruct (Z.ltb_spec (Z.of_nat (length (readBuffer s))) 8); [lia |].
  prim. reflexivity.
Qed.

Lemma slotDataAvailable_incomplete n o cm ss e sock i s id :
  cm !! sock = Some i -> ss !! sock = Some s ->
  Z.of_nat (length (readBuffer s)) < qint64 (msgLen i) ->
  slotDataAvailable sock id (mkServer n o cm ss e) = mkServer n o cm ss e.
Proof.
  intros Hi Hs Hlen. unfold slotDataAvailable.
  erewrite frame_incomplete by eassumption. reflexivity.
Qed.

Lemma slotDataAvailable_complete n o cm ss e sock i s id :
  cm !! sock = Some i -> ss !! sock = Some s ->
  qint64 (msgLen i) <= Z.of_nat (length (readBuffer s)) ->
  slotDataAvailable sock id (mkServer n o cm ss e)
  = mkServer n o
      (<[sock := mkInfo (msgLen i) (instanceId i) StageConnectedHeader]> cm)
      (<[sock := mkSocket [] (written s ++ [x0a]) (isOpen s)]> ss)
      (e ++ [receivedMessage id (readBuffer s)]).
Proof.
  intros Hi Hs Hlen. unfold slotDataAvailable.
  erewrite frame_complete by eassumption. prim. reflexivity.
Qed.

(** Closing a socket whose bytes were all read: [aboutToClose] finds
    nothing to deliver. *)
Lemma close_drained n o cm ss e sock i s :
  cm !! sock = Some i -> ss !! sock = Some s -> readBuffer s = [] ->
  close sock (mkServer n o cm ss e)
  = mkServer n o cm (<[sock := mkSocket [] (written s) false]> ss) e.
Proof.
  intros Hi Hs Hb. unfold close, onAboutToClose, slotClientConnectionClosed. prim.
  rewrite Hb. change (0 <? Z.of_nat (length (@nil byte))) with false. cbn. rewrite Hs. reflexivity.
Qed.

Section WithChecksum.

Context `{QChecksum}.

Lemma readInitMessageBody_incomplete n o cm ss e sock i s :
  cm !! sock = Some i -> ss !! sock = Some s ->
  Z.of_nat (length (readBuffer s)) < qint64 (msgLen i) ->
  readInitMessageBody sock (mkServer n o cm ss e) = mkServer n o cm ss e.
Proof.
  intros Hi Hs Hlen. unfold readInitMessageBody.
  erewrite frame_incomplete by eassumption. reflexivity.
Qed.

Lemma readInitMessageBody_invalid n o cm ss e sock i s :
  cm !! sock = Some i -> ss !! sock = Some s ->
  qint64 (msgLen i) <= Z.of_nat (length (readBuffer s)) ->
  isValid n (readBuffer s) = false ->
  readInitMessageBody sock (mkServer n o cm ss e)
  = mkServer n o cm (<[sock := mkSocket [] (written s) false]> ss) e.
Proof.
  intros Hi Hs Hlen Hv. unfold readInitMessageBody.
  erewrite frame_complete by eassumption. prim.
  unfold isValid in Hv.
  destruct (readInitMessage (readBuffer s)) as [[[[nm ct] id] ck] st].
  cbn [blockServerName]. rewrite Hv. cbn [negb].
  erewrite close_drained; [| eassumption | apply lookup_insert_eq | reflexivity].
  prim. reflexivity.
Qed.

Lemma readInitMessageBody_valid n o cm ss e sock i s nm ct id ck st :
  cm !! sock = Some i -> ss !! sock = Some s ->
  qint64 (msgLen i) <= Z.of_nat (length (readBuffer s)) ->
  readInitMessage (readBuffer s) = (nm, ct, id, ck, st) ->
  isValid n (readBuffer s) = true ->
  readInitMessageBody sock (mkServer n o cm ss e)
  = mkServer n o
      (<[sock := mkInfo (msgLen i) id StageConnectedHeader]> cm)
      (<[sock := mkSocket [] (written s ++ [x0a]) (isOpen s)]> ss)
      (e ++ if notifies o ct then [instanceStarted] else []).
Proof.
  intros Hi Hs Hlen Hr Hv. unfold readInitMessageBody.
  erewrite frame_complete by eassumption. prim.
  unfold isValid in Hv. rewrite Hr in *.
  cbn [blockServerName]. rewrite Hv. cbn [negb]. prim.
  cbn [options]. unfold notifies.
  destruct ((ct =? connectionTypeValue NewInstance)
            || (ct =? connectionTypeValue SecondaryInstance) && SecondaryNotification o);
    prim; [reflexivity|].
  now rewrite app_nil_r.
Qed.

(** *** One arrival on a connection, by case *)

Ltac conn_intro d :=
  let n' := fresh "n" in let o' := fresh "o" in let cm := fresh "cm" in
  let ss := fresh "ss" in let e' := fresh "e" in
  destruct d as [n' o' cm ss e'];
  intros (Hn & Ho & Hi & Hs & He); cbn in Hn, Ho, Hi, Hs, He; subst.

Ltac conn_done :=
  repeat split; cbn; rewrite ?insert_insert_eq; first [ apply lookup_insert_eq | assumption | reflexivity ].

Ltac arrive_open Hs Hopen :=
  unfold arrive; cbn [sockets]; rewrite Hs, Hopen;
  unfold set_sockets; cbn [blockServerName options connectionMap sockets emitted];
  unfold onReadyRead; prim.


Lemma arrive_header_short sock n o i s e d bytes :
  conn sock n o i s e d -> isOpen s = true -> awaitsHeader (stage i) = true ->
  Z.of_nat (length (readBuffer s ++ bytes)) < 8 ->
  conn sock n o i (mkSocket (readBuffer s ++ bytes) (written s) true) e
       (arrive sock bytes d).
Proof.
  conn_intro d. intros Hopen Hst Hlen. arrive_open Hs Hopen.
  destruct (stage i); try discriminate;
    (erewrite readMessageHeader_short; [| eassumption | apply lookup_insert_eq | exact Hlen]; conn_done).
Qed.

Lemma arrive_header_full sock n o i s e d bytes :
  conn sock n o i s e d -> isOpen s = true -> awaitsHeader (stage i) = true ->
  8 <= Z.of_nat (length (readBuffer s ++ bytes)) ->
  conn sock n o
       (mkInfo (qint64 (fromBigEndian (take 8 (readBuffer s ++ bytes))))
               (instanceId i) (bodyStage (stage i)))
       (mkSocket (drop 8 (readBuffer s ++ bytes)) (written s ++ [x0a]) true) e
       (arrive sock bytes d).
Proof.
  conn_intro d. intros Hopen Hst Hlen. arrive_open Hs Hopen.
  destruct (stage i); try discriminate;
    (erewrite readMessageHeader_full; [| eassumption | apply lookup_insert_eq | exact Hlen]; conn_done).
Qed.

Lemma arrive_body_short sock n o i s e d bytes :
  conn sock n o i s e d -> isOpen s = true -> awaitsHeader (stage i) = false ->
  Z.of_nat (length (readBuffer s ++ bytes)) < qint64 (msgLen i) ->
  conn sock n o i (mkSocket (readBuffer s ++ bytes) (written s) true) e
       (arrive sock bytes d).
Proof.
  conn_intro d. intros Hopen Hst Hlen. arrive_open Hs Hopen.
  destruct (stage i); try discriminate.
  - erewrite readInitMessageBody_incomplete;
      [| eassumption | apply lookup_insert_eq | exact Hlen]; conn_done.
  - erewrite slotDataAvailable_incomplete;
      [| eassumption | apply lookup_insert_eq | exact Hlen]; conn_done.
Qed.

Lemma arrive_payload sock n o i s e d bytes :
  conn sock n o i s e d -> isOpen s = true -> stage i = StageConnectedBody ->
  qint64 (msgLen i) <= Z.of_nat (length (readBuffer s ++ bytes)) ->
  conn sock n o
       (mkInfo (msgLen i) (instanceId i) StageConnectedHeader)
       (mkSocket [] (written s ++ [x0a]) true)
       (e ++ [receivedMessage (instanceId i) (readBuffer s ++ bytes)])
       (arrive sock bytes d).
Proof.
  conn_intro d. intros Hopen Hst Hlen. arrive_open Hs Hopen. rewrite Hst.
  erewrite slotDataAvailable_complete;
    [| eassumption | apply lookup_insert_eq | exact Hlen]; conn_done.
Qed.

Lemma arrive_init_invalid sock n o i s e d bytes :
  conn sock n o i s e d -> isOpen s = true -> stage i = StageInitBody ->
  qint64 (msgLen i) <= Z.of_nat (length (readBuffer s ++ bytes)) ->
  isValid n (readBuffer s ++ bytes) = false ->
  conn sock n o i (mkSocket [] (written s) false) e (arrive sock bytes d).
Proof.
  conn_intro d. intros Hopen Hst Hlen Hv. arrive_open Hs Hopen. rewrite Hst.
  erewrite readInitMessageBody_invalid;
    [| eassumption | apply lookup_insert_eq | exact Hlen | exact Hv]; conn_done.
Qed.

Lemma arrive_init_valid sock n o i s e d bytes nm ct id ck st :
  conn sock n o i s e d -> isOpen s = true -> stage i = StageInitBody ->
  qint64 (msgLen i) <= Z.of_nat (length (readBuffer s ++ bytes)) ->
  readInitMessage (readBuffer s ++ bytes) = (nm, ct, id, ck, st) ->
  isValid n (readBuffer s ++ bytes) = true ->
  conn sock n o
       (mkInfo (msgLen i) id StageConnectedHeader)
       (mkSocket [] (written s ++ [x0a]) true)
       (e ++ if notifies o ct then [instanceStarted] else [])
       (arrive sock bytes d).
Proof.
  conn_intro d. intros Hopen Hst Hlen Hr Hv. arrive_open Hs Hopen. rewrite Hst.
  erewrite readInitMessageBody_valid;
    [| eassumption | apply lookup_insert_eq | exact Hlen | exact Hr | exact Hv]; conn_done.
Qed.

(** *** A frame arriving in pieces *)

Lemma concat_nonempty_nil (chunks : list (list byte)) :
  Forall (fun c => c <> []) chunks -> concat chunks = [] -> chunks = [].
Proof.
  destruct chunks as [|c rest]; [reflexivity|].
  intros Hne Hc. apply Forall_cons in Hne as [Hc0 _].
  cbn in Hc. apply app_eq_nil in Hc. destruct Hc as [Hc _]. contradiction.
Qed.

(** While fewer than [N] bytes are there an arrival only extends the
    unread bytes; so the pieces of a frame of [N] bytes pile up until the
    last one arrives, and the slot sees the whole frame then. *)
Lemma accumulate sock n o i e (N : Z) (frame : list byte) :
  (forall s d bytes,
      conn sock n o i s e d -> isOpen s = true ->
      Z.of_nat (length (readBuffer s ++ bytes)) < N ->
      conn sock n o i (mkSocket (readBuffer s ++ bytes) (written s) true) e
           (arrive sock bytes d)) ->
  Z.of_nat (length frame) = N ->
  forall chunks s d,
    conn sock n o i s e d -> isOpen s = true ->
    Forall (fun c => c <> []) chunks ->
    Z.of_nat (length (readBuffer s)) < N ->
    readBuffer s ++ concat chunks = frame ->
    exists last s0 d0,
      conn sock n o i s0 e d0 /\ isOpen s0 = true /\ written s0 = written s /\
      readBuffer s0 ++ last = frame /\
      arrivals sock chunks d = arrive sock last d0.
Proof.
  intros Hshort HN chunks.
  induction chunks as [|c rest IH]; intros s d Hc Hopen Hne Hlen Hcat.
  - cbn in Hcat. rewrite app_nil_r in Hcat. subst frame. lia.
  - apply Forall_cons in Hne as [Hc0 Hrest].
    cbn [concat] in Hcat. rewrite app_assoc in Hcat.
    destruct (Z.lt_ge_cases (Z.of_nat (length (readBuffer s ++ c))) N) as [Hlt|Hge].
    + specialize (Hshort s d c Hc Hopen Hlt).
      destruct (IH _ _ Hshort eq_refl Hrest Hlt Hcat)
        as (last & s0 & d0 & Hc0' & Ho0 & Hw0 & Hb0 & Harr).
      exists last, s0, d0. cbn in Hw0, Hb0.
      split; [assumption|]. split; [assumption|]. split; [assumption|].
      split; [assumption|]. exact Harr.
    + assert (Hnil : concat rest = []).
      { apply length_zero_iff_nil.
        assert (Hl : length frame = (length (readBuffer s ++ c) + length (concat rest))%nat)
          by (rewrite <- Hcat; apply length_app).
        lia. }
      apply concat_nonempty_nil in Hnil; [|assumption]. subst rest.
      cbn in Hcat. rewrite app_nil_r in Hcat.
      exists c, s, d.
      split; [assumption|]. split; [assumption|]. split; [reflexivity|].
      split; [assumption|]. reflexivity.
Qed.

Lemma header_frame sock n o i s e d chunks h :
  conn sock n o i s e d -> isOpen s = true -> awaitsHeader (stage i) = true ->
  Forall (fun c => c <> []) chunks ->
  Z.of_nat (length (readBuffer s)) < 8 ->
  readBuffer s ++ concat chunks = h -> length h = 8%nat ->
  conn sock n o
       (mkInfo (qint64 (fromBigEndian h)) (instanceId i) (bodyStage (stage i)))
       (mkSocket [] (written s ++ [x0a]) true) e
       (arrivals sock chunks d).
Proof.
  intros Hc Hopen Hst Hne Hlen Hcat Hh.
  destruct (accumulate sock n o i e 8 h) with (chunks := chunks) (s := s) (d := d)
    as (last & s0 & d0 & Hc0 & Ho0 & Hw0 & Hb0 & Harr); try assumption.
  - intros s1 d1 bytes Hc1 Ho1 Hl1. now apply arrive_header_short.
  - lia.
  - rewrite Harr.
    pose proof (arrive_header_full sock n o i s0 e d0 last Hc0 Ho0 Hst) as Hfull.
    rewrite Hb0, Hw0 in Hfull.
    rewrite take_ge, drop_ge in Hfull by lia.
    apply Hfull. lia.
Qed.


Lemma init_frame_valid sock n o i s e d chunks msg nm ct id ck st :
  conn sock n o i s e d -> isOpen s = true -> stage i = StageInitBody ->
  Forall (fun c => c <> []) chunks ->
  qint64 (msgLen i) = Z.of_nat (length msg) ->
  (length (readBuffer s) < length msg)%nat ->
  readBuffer s ++ concat chunks = msg ->
  readInitMessage msg = (nm, ct, id, ck, st) ->
  isValid n msg = true ->
  conn sock n o
       (mkInfo (msgLen i) id StageConnectedHeader)
       (mkSocket [] (written s ++ [x0a]) true)
       (e ++ if notifies o ct then [instanceStarted] else [])
       (arrivals sock chunks d).
Proof.
  intros Hc Hopen Hst Hne HN Hlen Hcat Hr Hv.
  destruct (accumulate sock n o i e (qint64 (msgLen i)) msg)
    with (chunks := chunks) (s := s) (d := d)
    as (last & s0 & d0 & Hc0 & Ho0 & Hw0 & Hb0 & Harr); try assumption.
  - intros s1 d1 bytes Hc1 Ho1 Hl1. apply arrive_body_short; try assumption.
    now rewrite Hst.
  - now rewrite HN.
  - lia.
  - rewrite Harr.
    pose proof (arrive_init_valid sock n o i s0 e d0 last nm ct id ck st Hc0 Ho0 Hst) as Hfull.
    rewrite Hb0, Hw0 in Hfull. apply Hfull; [lia | assumption | assumption].
Qed.

Lemma isValid_initMessage name ct num :
  Z.of_nat (length name) + 9 < 2 ^ 32 ->
  isValid name (initMessage name ct num) = true.
Proof.
  intros Hlen. unfold isValid.
  rewrite readInitMessage_initMessage, actualChecksum_initMessage by assumption.
  rewrite bool_decide_eq_true_2 by reflexivity.
  now rewrite Z.eqb_refl.
Qed.

Lemma conn_acks sock n o i s e d : conn sock n o i s e d -> acks sock d = Some (written s).
Proof. intros (_ & _ & _ & Hs & _). unfold acks. now rewrite Hs. Qed.

Lemma conn_info sock n o i s e d : conn sock n o i s e d -> info sock d = i.
Proof. intros (_ & _ & Hi & _ & _). unfold info. now rewrite Hi. Qed.

Lemma conn_emitted sock n o i s e d : conn sock n o i s e d -> emitted d = e.
Proof. now intros (_ & _ & _ & _ & He). Qed.

Lemma conn_established sock d :
  conn sock (blockServerName d) (options d) defaultInfo (mkSocket [] [] true) (emitted d)
       (slotConnectionEstablished sock d).
Proof.
  destruct d as [n o cm ss e]. unfold slotConnectionEstablished, set_info, set_sockets,
    set_connectionMap. cbn. repeat split; apply lookup_insert_eq.
Qed.


(** The handshake of [connectToPrimary] on a fresh connection: both frames
    are acknowledged, the connection is past its handshake and remembers
    the instance number sent. *)
Lemma handshake_accepted sock d ct num hs bs :
  0 <= num < 2 ^ 32 ->
  Z.of_nat (length (blockServerName d)) + 9 < 2 ^ 32 ->
  Forall (fun c => c <> []) hs -> Forall (fun c => c <> []) bs ->
  concat hs = headerFrame (initMessage (blockServerName d) ct num) ->
  concat bs = initMessage (blockServerName d) ct num ->
  conn sock (blockServerName d) (options d)
       (mkInfo (Z.of_nat (length (initMessage (blockServerName d) ct num))) num
               StageConnectedHeader)
       (mkSocket [] [x0a; x0a] true)
       (emitted d ++ if notifies (options d) (connectionTypeValue ct)
                     then [instanceStarted] else [])
       (arrivals sock bs (arrivals sock hs (slotConnectionEstablished sock d))).
Proof.
  intros Hnum Hname Hhs Hbs Hh Hb.
  set (init := initMessage (blockServerName d) ct num) in *.
  assert (Hlen : Z.of_nat (length init) < 2 ^ 63)
    by (unfold init; rewrite length_initMessage; lia).
  pose proof (header_frame sock _ _ _ _ _ _ hs (headerFrame init)
                (conn_established sock d) eq_refl eq_refl Hhs ltac:(cbn; lia) Hh
                (length_headerFrame init)) as Hhead.
  rewrite headerFrame_decode in Hhead by assumption.
  cbn [instanceId stage bodyStage defaultInfo written app] in Hhead.
  pose proof (fun HN Hl =>
                init_frame_valid sock _ _ _ _ _ _ bs init _ _ _ _ _
                  Hhead eq_refl eq_refl Hbs HN Hl Hb
                  (readInitMessage_initMessage _ ct num Hname)
                  (isValid_initMessage _ ct num Hname)) as Hbody.
  cbn [msgLen readBuffer written app length] in Hbody.
  specialize (Hbody ltac:(unfold qint64; rewrite Z.mod_small by lia; lia)
                    ltac:(unfold init; rewrite length_initMessage; lia)).
  unfold quint32 in Hbody. rewrite Z.mod_small in Hbody by lia. exact Hbody.
Qed.


Lemma arrivals_closed sock d s chunks :
  sockets d !! sock = Some s -> isOpen s = false -> arrivals sock chunks d = d.
Proof.
  intros Hs Hc. induction chunks as [|c rest IH]; [reflexivity|].
  cbn [arrivals fold_left]. unfold arrive at 2. rewrite Hs, Hc. exact IH.
Qed.


(** While fewer bytes are unread than the length stored for the
    connection, an arrival in a body-awaiting stage changes neither the stage
    nor the signals emitted, and writes no acknowledgement. *)
Lemma incomplete_frame_waits sock d i s bytes :
  connectionMap d !! sock = Some i -> sockets d !! sock = Some s ->
  isOpen s = true -> awaitsHeader (stage i) = false ->
  Z.of_nat (length (readBuffer s ++ bytes)) < qint64 (msgLen i) ->
  let d' := arrive sock bytes d in
  connectionMap d' !! sock = Some i /\
  sockets d' !! sock = Some (mkSocket (readBuffer s ++ bytes) (written s) true) /\
  emitted d' = emitted d.
Proof.
  intros Hi Hs Hopen Hst Hlen d'.
  assert (Hc : conn sock (blockServerName d) (options d) i s (emitted d) d)
    by (repeat split; assumption).
  pose proof (arrive_body_short sock _ _ _ _ _ _ bytes Hc Hopen Hst Hlen) as Hc'.
  fold d' in Hc'. destruct Hc' as (_ & _ & Hi' & Hs' & He'). auto.
Qed.

End WithChecksum.

(** *** Evaluation on concrete connections *)



(** A header announcing five bytes, then three bytes, then the other two:
    nothing is delivered and the stage stays until the last two arrive. *)
Example five_announced_three_arrived :
  let d1 := arrive (H := crc16_checksum) 0 (headerFrame [x68; x65; x6c; x6c; x6f])
                   sampleConnected in
  let d2 := arrive (H := crc16_checksum) 0 [x68; x65; x6c] d1 in
  let d3 := arrive (H := crc16_checksum) 0 [x6c; x6f] d2 in
  stage (info 0 d2) = StageConnectedBody /\ emitted d2 = [] /\
  acks 0 d2 = Some [x0a; x0a; x0a] /\
  stage (info 0 d3) = StageConnectedHeader /\
  emitted d3 = [receivedMessage 7 [x68; x65; x6c; x6c; x6f]] /\
  acks 0 d3 = Some [x0a; x0a; x0a; x0a].
Proof. vm_compute. repeat split; reflexivity. Qed.

(** The handshake of a new instance raises [instanceStarted]. *)
Example new_instance_is_announced :
  let init := initMessage (H := crc16_checksum) [x61; x70; x70] NewInstance 0 in
  emitted (arrivals (H := crc16_checksum) 0 [headerFrame init; init]
                    (slotConnectionEstablished 0 sampleServer))
  = [instanceStarted].
Proof. vm_compute. reflexivity. Qed.

(** C3, at a header announcing 2^64 - 1 bytes.  The length is stored in
    the signed [msgLen] as -1, so the one byte that arrives next counts as
    the complete frame: it is delivered and the stage changes, with fewer
    bytes there than announced. *)
Theorem huge_length_delivers_early :
  let header := replicate 8 xff in
  let d1 := arrive (H := crc16_checksum) 0 header sampleConnected in
  let d2 := arrive (H := crc16_checksum) 0 [x21] d1 in
  fromBigEndian header = 2 ^ 64 - 1 /\
  stage (info 0 d1) = StageConnectedBody /\
  msgLen (info 0 d1) = -1 /\
  emitted d1 = [] /\
  emitted d2 = [receivedMessage 7 [x21]] /\
  stage (info 0 d2) = StageConnectedHeader.
Proof. vm_compute. repeat split; reflexivity. Qed.

(** *** Handshakes the listener refuses, and what it announces *)

Section Handshakes.

Context `{QChecksum}.

Lemma init_frame_invalid sock n o i s e d chunks msg :
  conn sock n o i s e d -> isOpen s = true -> stage i = StageInitBody ->
  Forall (fun c => c <> []) chunks ->
  qint64 (msgLen i) = Z.of_nat (length msg) ->
  (length (readBuffer s) < length msg)%nat ->
  readBuffer s ++ concat chunks = msg ->
  isValid n msg = false ->
  conn sock n o i (mkSocket [] (written s) false) e (arrivals sock chunks d).
Proof.
  intros Hc Hopen Hst Hne HN Hlen Hcat Hv.
  destruct (accumulate sock n o i e (qint64 (msgLen i)) msg)
    with (chunks := chunks) (s := s) (d := d)
    as (last & s0 & d0 & Hc0 & Ho0 & Hw0 & Hb0 & Harr); try assumption.
  - intros s1 d1 bytes Hc1 Ho1 Hl1. apply arrive_body_short; try assumption.
    now rewrite Hst.
  - now rewrite HN.
  - lia.
  - rewrite Harr.
    pose proof (arrive_init_invalid sock n o i s0 e d0 last Hc0 Ho0 Hst) as Hfull.
    rewrite Hb0, Hw0 in Hfull. apply Hfull; [lia | assumption].
Qed.

(** A first message that is not a valid handshake, sent to a fresh
    connection as header frame and body frame: the header is acknowledged,
    the body is not, the socket is closed and stays as it is. *)
Lemma invalid_handshake_closes sock d body hs bs :
  body <> [] -> Z.of_nat (length body) < 2 ^ 63 ->
  isValid (blockServerName d) body = false ->
  Forall (fun c => c <> []) hs -> Forall (fun c => c <> []) bs ->
  concat hs = headerFrame body -> concat bs = body ->
  let d' := arrivals sock bs (arrivals sock hs (slotConnectionEstablished sock d)) in
  sockets d' !! sock = Some (mkSocket [] [x0a] false) /\
  emitted d' = emitted d /\
  forall chunks, arrivals sock chunks d' = d'.
Proof.
  intros Hne Hlen Hv Hhs Hbs Hh Hb d'.
  pose proof (header_frame sock _ _ _ _ _ _ hs (headerFrame body)
                (conn_established sock d) eq_refl eq_refl Hhs ltac:(cbn; lia) Hh
                (length_headerFrame body)) as Hhead.
  rewrite headerFrame_decode in Hhead by assumption.
  cbn [instanceId stage bodyStage defaultInfo written app] in Hhead.
  pose proof (init_frame_invalid sock _ _ _ _ _ _ bs body Hhead eq_refl eq_refl Hbs) as Hbody.
  cbn [msgLen readBuffer written length] in Hbody.
  assert (Hc : conn sock (blockServerName d) (options d)
                    (mkInfo (Z.of_nat (length body)) 0 StageInitBody)
                    (mkSocket [] [x0a] false) (emitted d) d').
  { apply Hbody; try assumption.
    - unfold qint64. rewrite Z.mod_small by lia. lia.
    - destruct body; [contradiction | cbn; lia]. }
  destruct Hc as (_ & _ & _ & Hs' & He').
  split; [exact Hs'|]. split; [exact He'|].
  intros chunks. now apply (arrivals_closed sock d' _ chunks Hs').
Qed.

(** X3.  What [connectToPrimary] writes as its initialisation message the
    listener reads back field by field: the name, the connection type, the
    instance number in 32 bits, and a checksum equal to the one it
    recomputes, with the stream still [Ok]; the message passes [isValid]
    for that name. *)
Theorem init_message_round_trip name ct num :
  Z.of_nat (length name) + 9 < 2 ^ 32 ->
  exists ck,
    readInitMessage (initMessage name ct num)
    = (name, connectionTypeValue ct, quint32 num, ck, Ok)
    /\ ck = actualChecksum (initMessage name ct num)
    /\ isValid name (initMessage name ct num) = true.
Proof.
  intros Hlen. exists (quint16 (qChecksum (initPrefix name ct num))).
  split; [now apply readInitMessage_initMessage|].
  split; [now rewrite actualChecksum_initMessage|].
  now apply isValid_initMessage.
Qed.


(** X5.  A handshake with the right name whose checksum field holds
    another value than the checksum of the bytes before it is refused: the
    body is not acknowledged, no signal is emitted and the socket is
    closed. *)
Theorem wrong_checksum_rejected sock d ct num v hs bs :
  Z.of_nat (length (blockServerName d)) + 9 < 2 ^ 32 ->
  quint16 v <> quint16 (qChecksum (initPrefix (blockServerName d) ct num)) ->
  Forall (fun c => c <> []) hs -> Forall (fun c => c <> []) bs ->
  concat hs = headerFrame (initPrefix (blockServerName d) ct num ++ toBigEndian 2 v) ->
  concat bs = initPrefix (blockServerName d) ct num ++ toBigEndian 2 v ->
  let d' := arrivals sock bs (arrivals sock hs (slotConnectionEstablished sock d)) in
  sockets d' !! sock = Some (mkSocket [] [x0a] false) /\
  emitted d' = emitted d /\
  forall chunks, arrivals sock chunks d' = d'.
Proof.
  intros Hlen Hck.
  assert (Hl : length (initPrefix (blockServerName d) ct num ++ toBigEndian 2 v)
               = (length (blockServerName d) + 11)%nat)
    by (rewrite length_app, length_toBigEndian, length_initPrefix; lia).
  apply invalid_handshake_closes.
  - intros Hnil. rewrite Hnil in Hl. cbn in Hl. lia.
  - rewrite Hl. lia.
  - unfold isValid.
    rewrite readInitMessage_with_checksum, actualChecksum_with_checksum by assumption.
    apply Z.eqb_neq in Hck. rewrite Hck. now rewrite andb_false_r.
Qed.

(** X6.  The handshake of a secondary that computed another name than the
    listener's, well formed and with its checksum right, is refused: the
    body is not acknowledged, no signal is emitted and the socket is
    closed. *)
Theorem foreign_name_rejected sock d name ct num hs bs :
  name <> blockServerName d ->
  Z.of_nat (length name) + 9 < 2 ^ 32 ->
  Forall (fun c => c <> []) hs -> Forall (fun c => c <> []) bs ->
  concat hs = headerFrame (initMessage name ct num) ->
  concat bs = initMessage name ct num ->
  let d' := arrivals sock bs (arrivals sock hs (slotConnectionEstablished sock d)) in
  sockets d' !! sock = Some (mkSocket [] [x0a] false) /\
  emitted d' = emitted d /\
  forall chunks, arrivals sock chunks d' = d'.
Proof.
  intros Hname Hlen.
  apply invalid_handshake_closes.
  - intros Hnil. pose proof (length_initMessage name ct num) as Hl.
    rewrite Hnil in Hl. cbn in Hl. lia.
  - rewrite length_initMessage. lia.
  - unfold isValid. rewrite readInitMessage_initMessage by assumption.
    rewrite bool_decide_eq_false_2 by assumption. now rewrite andb_false_r.
Qed.

(** X7.  A valid handshake is accepted whatever its connection type, even
    [InvalidConnection]: the connection is past its handshake with the
    instance number stored.  [instanceStarted] is raised for [NewInstance],
    for [SecondaryInstance] when the option [SecondaryNotification] is set,
    and for no other type. *)
Theorem handshake_notification sock d ct num hs bs :
  0 <= num < 2 ^ 32 ->
  Z.of_nat (length (blockServerName d)) + 9 < 2 ^ 32 ->
  Forall (fun c => c <> []) hs -> Forall (fun c => c <> []) bs ->
  concat hs = headerFrame (initMessage (blockServerName d) ct num) ->
  concat bs = initMessage (blockServerName d) ct num ->
  let d' := arrivals sock bs (arrivals sock hs (slotConnectionEstablished sock d)) in
  stage (info sock d') = StageConnectedHeader /\
  instanceId (info sock d') = num /\
  emitted d'
  = emitted d ++ match ct with
                 | NewInstance => [instanceStarted]
                 | SecondaryInstance =>
                     if SecondaryNotification (options d) then [instanceStarted] else []
                 | InvalidConnection | Reconnect => []
                 end.
Proof.
  intros Hnum Hname Hhs Hbs Hh Hb d'.
  pose proof (handshake_accepted sock d ct num hs bs Hnum Hname Hhs Hbs Hh Hb) as Hc.
  fold d' in Hc.
  rewrite (conn_info _ _ _ _ _ _ _ Hc), (conn_emitted _ _ _ _ _ _ _ Hc).
  split; [reflexivity|]. split; [reflexivity|].
  destruct ct; reflexivity.
Qed.

End Handshakes.

(** *** What the slots of one connection leave alone *)
















Section Invariants.

Context `{QChecksum}.





(** *** The signals of one connection *)




Lemma connected_step sock n o i s base msgs d bytes :
  conn sock n o i s (base ++ map (receivedMessage (instanceId i)) msgs) d ->
  connected (stage i) = true -> isOpen s = true ->
  exists i' s' msgs',
    conn sock n o i' s' (base ++ map (receivedMessage (instanceId i)) msgs')
         (arrive sock bytes d)
    /\ connected (stage i') = true /\ isOpen s' = true /\ instanceId i' = instanceId i.
Proof.
  intros Hc Hcn Hopen.
  destruct (stage i) eqn:Hst; try discriminate.
  - destruct (Z_lt_le_dec (Z.of_nat (length (readBuffer s ++ bytes))) 8) as [Hlt|Hge].
    + eexists _, _, msgs. split.
      * eapply arrive_header_short; eauto. now rewrite Hst.
      * now rewrite Hst.
    + eexists _, _, msgs. split.
      * eapply arrive_header_full; eauto. now rewrite Hst.
      * now rewrite Hst.
  - destruct (Z_lt_le_dec (Z.of_nat (length (readBuffer s ++ bytes))) (qint64 (msgLen i)))
      as [Hlt|Hge].
    + eexists _, _, msgs. split.
      * eapply arrive_body_short; eauto. now rewrite Hst.
      * now rewrite Hst.
    + pose proof (arrive_payload sock n o i s _ d bytes Hc Hopen Hst Hge) as Hc'.
      rewrite <- app_assoc in Hc'.
      exists (mkInfo (msgLen i) (instanceId i) StageConnectedHeader),
             (mkSocket [] (written s ++ [x0a]) true), (msgs ++ [readBuffer s ++ bytes]).
      rewrite map_app. now split.
Qed.

(** X10.  Past its handshake, a connection stays there: whatever arrives,
    the listener neither closes the socket nor reads a handshake again, the
    instance number of the entry stays, and every signal the arrivals cause
    is a message under that number. *)
Theorem connected_stays_connected sock d i s chunks :
  connectionMap d !! sock = Some i -> sockets d !! sock = Some s ->
  connected (stage i) = true -> isOpen s = true ->
  let d' := arrivals sock chunks d in
  exists i' s' msgs,
    connectionMap d' !! sock = Some i' /\ sockets d' !! sock = Some s' /\
    connected (stage i') = true /\ isOpen s' = true /\
    instanceId i' = instanceId i /\
    emitted d' = emitted d ++ map (receivedMessage (instanceId i)) msgs.
Proof.
  intros Hi Hs Hcn Hopen d'. subst d'.
  assert (Hgen : forall chunks i0 s0 msgs0 d0,
             conn sock (blockServerName d) (options d) i0 s0
                  (emitted d ++ map (receivedMessage (instanceId i)) msgs0) d0 ->
             connected (stage i0) = true -> isOpen s0 = true ->
             instanceId i0 = instanceId i ->
             exists i' s' msgs,
               conn sock (blockServerName d) (options d) i' s'
                    (emitted d ++ map (receivedMessage (instanceId i)) msgs)
                    (arrivals sock chunks d0)
               /\ connected (stage i') = true /\ isOpen s' = true
               /\ instanceId i' = instanceId i).
  { clear. induction chunks as [|c rest IH]; intros i0 s0 msgs0 d0 Hc Hcn Hopen Hid.
    - now exists i0, s0, msgs0.
    - rewrite <- Hid in Hc.
      destruct (connected_step sock _ _ i0 s0 _ msgs0 d0 c Hc Hcn Hopen)
        as (i1 & s1 & msgs1 & Hc1 & Hcn1 & Hopen1 & Hid1).
      rewrite Hid in Hc1.
      apply (IH i1 s1 msgs1 _ Hc1 Hcn1 Hopen1). congruence. }
  destruct (Hgen chunks i s [] d) as (i' & s' & msgs & Hc' & Hcn' & Hopen' & Hid');
    try assumption; try reflexivity.
  { cbn. rewrite app_nil_r. now repeat split. }
  destruct Hc' as (_ & _ & Hi' & Hs' & He'). now exists i', s', msgs.
Qed.

(** X11.  Bytes that arrive together with a header wait for the next
    arrival: the header is read and acknowledged and nothing is delivered,
    even when the whole frame is there.  The next arrival that brings what
    is unread to the announced length delivers all of it as one message,
    however much more than announced that is. *)
Theorem coalesced_frames_are_spliced sock d i s msg rest next :
  connectionMap d !! sock = Some i -> sockets d !! sock = Some s ->
  isOpen s = true -> stage i = StageConnectedHeader -> readBuffer s = [] ->
  Z.of_nat (length msg) < 2 ^ 63 ->
  (length msg <= length (rest ++ next))%nat ->
  let d1 := arrive sock (headerFrame msg ++ rest) d in
  let d2 := arrive sock next d1 in
  emitted d1 = emitted d /\
  stage (info sock d1) = StageConnectedBody /\
  sockets d1 !! sock = Some (mkSocket rest (written s ++ [x0a]) true) /\
  emitted d2 = emitted d ++ [receivedMessage (instanceId i) (rest ++ next)] /\
  sockets d2 !! sock = Some (mkSocket [] (written s ++ [x0a; x0a]) true).
Proof.
  intros Hi Hs Hopen Hst Hbuf Hlen Hle d1 d2.
  assert (Hc : conn sock (blockServerName d) (options d) i s (emitted d) d)
    by now repeat split.
  assert (Hc1 : conn sock (blockServerName d) (options d)
                  (mkInfo (Z.of_nat (length msg)) (instanceId i) StageConnectedBody)
                  (mkSocket rest (written s ++ [x0a]) true) (emitted d) d1).
  { pose proof (arrive_header_full sock _ _ i s _ d (headerFrame msg ++ rest) Hc Hopen) as Hf.
    rewrite Hbuf, Hst in Hf. cbn [app awaitsHeader bodyStage] in Hf.
    assert (Ht : take 8 (headerFrame msg ++ rest) = headerFrame msg)
      by (rewrite <- (length_headerFrame msg) at 1; apply take_app_length).
    assert (Hd : drop 8 (headerFrame msg ++ rest) = rest)
      by (rewrite <- (length_headerFrame msg) at 1; apply drop_app_length).
    rewrite Ht, Hd, headerFrame_decode in Hf by exact Hlen.
    apply Hf; [reflexivity|].
    rewrite length_app, length_headerFrame. lia. }
  assert (Hc2 : conn sock (blockServerName d) (options d)
                  (mkInfo (Z.of_nat (length msg)) (instanceId i) StageConnectedHeader)
                  (mkSocket [] ((written s ++ [x0a]) ++ [x0a]) true)
                  (emitted d ++ [receivedMessage (instanceId i) (rest ++ next)]) d2).
  { apply (arrive_payload sock _ _ _ _ _ d1 next Hc1); try reflexivity.
    cbn [msgLen readBuffer]. unfold qint64.
    rewrite Z.mod_small by lia. lia. }
  destruct Hc1 as (_ & _ & Hi1 & Hs1 & He1), Hc2 as (_ & _ & Hi2 & Hs2 & He2).
  repeat split; try assumption.
  - unfold info. now rewrite Hi1.
  - now rewrite <- app_assoc in Hs2.
Qed.

End Invariants.

(** X12.  When a socket is about to close with bytes unread, the slot
    delivers them as one message under the instance number of its entry,
    acknowledges and sets the stage to [StageConnectedHeader], provided
    they are no fewer than the length the entry holds; the stage the
    connection is in plays no part.  With nothing unread, or with fewer
    bytes than that length, the listener stays as it is. *)
Theorem closing_delivers_what_is_unread sock d i s :
  connectionMap d !! sock = Some i -> sockets d !! sock = Some s ->
  let d' := onAboutToClose sock d in
  (readBuffer s <> [] -> qint64 (msgLen i) <= Z.of_nat (length (readBuffer s)) ->
   emitted d' = emitted d ++ [receivedMessage (instanceId i) (readBuffer s)] /\
   sockets d' !! sock = Some (mkSocket [] (written s ++ [x0a]) (isOpen s)) /\
   connectionMap d' !! sock
   = Some (mkInfo (msgLen i) (instanceId i) StageConnectedHeader)) /\
  (readBuffer s = [] \/ Z.of_nat (length (readBuffer s)) < qint64 (msgLen i) ->
   d' = d).
Proof.
  intros Hi Hs d'. subst d'. destruct d as [n o cm ss e]. cbn in Hi, Hs.
  unfold onAboutToClose, slotClientConnectionClosed. cbv zeta.
  rewrite (index_some n o cm ss e sock i Hi), (info_some n o cm ss e sock i Hi),
    (bytesAvailable_some n o cm ss e sock s Hs).
  split.
  - intros Hne Hge.
    assert (Hpos : (0 <? Z.of_nat (length (readBuffer s))) = true).
    { apply Z.ltb_lt. destruct (readBuffer s); [congruence | cbn; lia]. }
    rewrite Hpos.
    rewrite (slotDataAvailable_complete n o cm ss e sock i s (instanceId i) Hi Hs Hge).
    cbn. repeat split; apply lookup_insert_eq.
  - intros [Hnil | Hlt].
    + now rewrite Hnil.
    + destruct (0 <? _); [|reflexivity].
      apply (slotDataAvailable_incomplete n o cm ss e sock i s (instanceId i) Hi Hs Hlt).
Qed.

(** *** Evaluation of the further properties on [sampleServer] *)

(** X3 on the handshake of instance 7. *)
Lemma init_message_round_trip_witness :
  exists ck,
    readInitMessage sampleInit = ([x61; x70; x70], 2, 7, ck, Ok)
    /\ ck = actualChecksum (H := crc16_checksum) sampleInit
    /\ isValid (H := crc16_checksum) [x61; x70; x70] sampleInit = true.
Proof.
  apply (init_message_round_trip (H := crc16_checksum) [x61; x70; x70] SecondaryInstance 7).
  vm_compute. reflexivity.
Defined.


(** X5 on the handshake of instance 7 with 21020 as its checksum field. *)
Lemma wrong_checksum_rejected_witness :
  let body := initPrefix [x61; x70; x70] SecondaryInstance 7 ++ toBigEndian 2 21020 in
  let d' := arrivals (H := crc16_checksum) 0 [body]
              (arrivals (H := crc16_checksum) 0 [headerFrame body]
                 (slotConnectionEstablished 0 sampleServer)) in
  sockets d' !! 0%nat = Some (mkSocket [] [x0a] false) /\
  emitted d' = emitted sampleServer /\
  forall chunks, arrivals (H := crc16_checksum) 0 chunks d' = d'.
Proof.
  apply (wrong_checksum_rejected (H := crc16_checksum) 0 sampleServer SecondaryInstance 7
           21020
           [headerFrame (initPrefix [x61; x70; x70] SecondaryInstance 7
                         ++ toBigEndian 2 21020)]
           [initPrefix [x61; x70; x70] SecondaryInstance 7 ++ toBigEndian 2 21020]);
    try (vm_compute; discriminate);
    try (repeat constructor; discriminate);
    try (vm_compute; reflexivity).
Defined.

(** X6 on a handshake computed for the name ["b"]. *)
Lemma foreign_name_rejected_witness :
  let body := initMessage (H := crc16_checksum) [x62] SecondaryInstance 7 in
  let d' := arrivals (H := crc16_checksum) 0 [body]
              (arrivals (H := crc16_checksum) 0 [headerFrame body]
                 (slotConnectionEstablished 0 sampleServer)) in
  sockets d' !! 0%nat = Some (mkSocket [] [x0a] false) /\
  emitted d' = emitted sampleServer /\
  forall chunks, arrivals (H := crc16_checksum) 0 chunks d' = d'.
Proof.
  apply (foreign_name_rejected (H := crc16_checksum) 0 sampleServer [x62]
           SecondaryInstance 7
           [headerFrame (initMessage (H := crc16_checksum) [x62] SecondaryInstance 7)]
           [initMessage (H := crc16_checksum) [x62] SecondaryInstance 7]);
    try (vm_compute; discriminate);
    try (repeat constructor; vm_compute; discriminate);
    try (vm_compute; reflexivity).
Defined.

(** X7 on a handshake of type [InvalidConnection] from instance 5. *)
Lemma handshake_notification_witness :
  let init := initMessage (H := crc16_checksum) [x61; x70; x70] InvalidConnection 5 in
  let d' := arrivals (H := crc16_checksum) 0 [init]
              (arrivals (H := crc16_checksum) 0 [headerFrame init]
                 (slotConnectionEstablished 0 sampleServer)) in
  stage (info 0 d') = StageConnectedHeader /\
  instanceId (info 0 d') = 5 /\
  emitted d' = [].
Proof.
  apply (handshake_notification (H := crc16_checksum) 0 sampleServer InvalidConnection 5
           [headerFrame (initMessage (H := crc16_checksum) [x61; x70; x70]
                           InvalidConnection 5)]
           [initMessage (H := crc16_checksum) [x61; x70; x70] InvalidConnection 5]);
    try lia;
    try (repeat constructor; vm_compute; discriminate);
    try (vm_compute; reflexivity).
Defined.

(** X10 on [sampleConnected]: a header, then its two bytes one by one. *)
Lemma connected_stays_connected_witness :
  let d' := arrivals (H := crc16_checksum) 0 [headerFrame [x68; x69]; [x68]; [x69]]
              sampleConnected in
  exists i' s' msgs,
    connectionMap d' !! 0%nat = Some i' /\ sockets d' !! 0%nat = Some s' /\
    connected (stage i') = true /\ isOpen s' = true /\
    instanceId i' = 7 /\
    emitted d' = emitted sampleConnected ++ map (receivedMessage 7) msgs.
Proof.
  apply (connected_stays_connected (H := crc16_checksum) 0 sampleConnected
           (mkInfo 14 7 StageConnectedHeader) (mkSocket [] [x0a; x0a] true)
           [headerFrame [x68; x69]; [x68]; [x69]]);
    vm_compute; reflexivity.
Defined.

(** X11 on [sampleConnected]: the header of ["hi"] arrives with the first
    byte, the second byte after it. *)
Lemma coalesced_frames_are_spliced_witness :
  let d1 := arrive (H := crc16_checksum) 0 (headerFrame [x68; x69] ++ [x68])
              sampleConnected in
  let d2 := arrive (H := crc16_checksum) 0 [x69] d1 in
  emitted d1 = emitted sampleConnected /\
  stage (info 0 d1) = StageConnectedBody /\
  sockets d1 !! 0%nat = Some (mkSocket [x68] [x0a; x0a; x0a] true) /\
  emitted d2 = emitted sampleConnected ++ [receivedMessage 7 [x68; x69]] /\
  sockets d2 !! 0%nat = Some (mkSocket [] [x0a; x0a; x0a; x0a] true).
Proof.
  apply (coalesced_frames_are_spliced (H := crc16_checksum) 0 sampleConnected
           (mkInfo 14 7 StageConnectedHeader) (mkSocket [] [x0a; x0a] true)
           [x68; x69] [x68] [x69]);
    try (vm_compute; reflexivity);
    try (cbn; lia).
Defined.

(** X12 on [sampleStray]: three bytes arrived on a connection that never
    sent a header, and the socket is about to close. *)
Lemma closing_delivers_what_is_unread_witness :
  let d' := onAboutToClose 0 sampleStray in
  ([x01; x02; x03] <> [] -> qint64 0 <= 3 ->
   emitted d' = emitted sampleStray ++ [receivedMessage 0 [x01; x02; x03]] /\
   sockets d' !! 0%nat = Some (mkSocket [] [x0a] true) /\
   connectionMap d' !! 0%nat = Some (mkInfo 0 0 StageConnectedHeader)) /\
  ([x01; x02; x03] = [] \/ 3 < qint64 0 -> d' = sampleStray).
Proof.
  apply (closing_delivers_what_is_unread 0 sampleStray
           (mkInfo 0 0 StageInitHeader) (mkSocket [x01; x02; x03] [] true));
    vm_compute; reflexivity.
Defined.

End ListenerFacts.

(** ** The connector *)

Module ConnectorFacts.
Import Connector.

Lemma writeConfirmedFrame_returns msecs msg c r c' :
  writeConfirmedFrame msecs msg c = Returns r c' ->
  exists took,
    0 <= took /\
    calls c' = calls c ++ frameCalls msecs msg took r /\
    clock c' = clock c + took /\
    socket c' = socket c /\ blockServerName c' = blockServerName c /\
    instanceNumber c' = instanceNumber c.
Proof.
  unfold writeConfirmedFrame, waitForReadyRead, write, read, frameCalls. cbn.
  destruct (hd None (readWaits (world c))) as [[took ready]|]; [|discriminate].
  cbn. destruct ready; intros Hr; inversion Hr; subst; clear Hr; cbn;
    exists (Z.of_N took); rewrite <- ?app_assoc; cbn; repeat split; lia.
Qed.

(** A message confirmed is two frames written and acknowledged: the header
    with the length, then the message. *)
Lemma writeConfirmedMessage_true msecs msg c c' :
  writeConfirmedMessage msecs msg c = Returns true c' ->
  exists m1 took1 m2 took2,
    calls c' = calls c ++ frameCalls m1 (headerFrame msg) took1 true
                       ++ frameCalls m2 msg took2 true.
Proof.
  unfold writeConfirmedMessage. intros Hr.
  destruct (writeConfirmedFrame _ (headerFrame msg) c) as [ok c1| |] eqn:E1;
    cbn [bind] in Hr; try discriminate.
  destruct ok; cbn [negb] in Hr; [|discriminate].
  apply writeConfirmedFrame_returns in E1, Hr.
  destruct E1 as (took1 & _ & Hc1 & _). destruct Hr as (took2 & _ & Hc2 & _).
  eexists _, took1, _, took2. rewrite Hc2, Hc1, <- app_assoc. reflexivity.
Qed.

(** One turn of the loop moves the clock on by the sleep at least. *)
Lemma randomSleep_clock c : clock c + 8 <= clock (randomSleep c).
Proof.
  unfold randomSleep. cbn.
  pose proof (Z.mod_pos_bound (hd 0 (draws (world c))) 10). lia.
Qed.

Lemma connectLoop_returns fuel msecs start c r c' :
  connectLoop fuel msecs start c = Returns r c' ->
  (if r then state c' = ConnectedState
   else state c' <> ConnectedState /\ msecs <= clock c' - start) /\
  (exists cs, calls c' = calls c ++ cs /\ Forall (fun call => isWrite call = false) cs) /\
  clock c + 8 <= clock c' /\
  blockServerName c' = blockServerName c /\ instanceNumber c' = instanceNumber c.
Proof.
  revert c. induction fuel as [|fuel IH]; intros c; [discriminate|].
  cbn [connectLoop].
  set (c1 := randomSleep c).
  set (c2 := if decide (state c1 <> ConnectingState) then connectToServer c1 else c1).
  assert (H2 : clock c + 8 <= clock c2 /\
               (exists cs, calls c2 = calls c ++ cs
                           /\ Forall (fun call => isWrite call = false) cs) /\
               blockServerName c2 = blockServerName c /\
               instanceNumber c2 = instanceNumber c).
  { pose proof (randomSleep_clock c) as Hs. subst c2 c1.
    destruct (decide _); cbn.
    - split; [exact Hs|]. split; [|split; reflexivity].
      eexists. rewrite <- app_assoc. split; [reflexivity | repeat constructor].
    - split; [exact Hs|]. split; [|split; reflexivity].
      eexists. split; [reflexivity | repeat constructor]. }
  clearbody c2. clear c1.
  destruct H2 as (Hclk2 & (cs2 & Hcalls2 & Hw2) & Hn2 & Hi2).
  assert (H3 : forall c3,
             (if decide (state c2 = ConnectingState)
              then waitForConnected (int (msecs - (clock c2 - start))) c2
              else Returns tt c2) = Returns tt c3 ->
             clock c2 <= clock c3 /\
             (exists cs, calls c3 = calls c2 ++ cs
                         /\ Forall (fun call => isWrite call = false) cs) /\
             blockServerName c3 = blockServerName c2 /\
             instanceNumber c3 = instanceNumber c2).
  { intros c3. destruct (decide _).
    - unfold waitForConnected.
      destruct (hd None (connectWaits (world c2))) as [[took after]|]; [|discriminate].
      intros Hr. inversion Hr; subst; clear Hr. cbn.
      split; [lia|]. split; [|split; reflexivity].
      eexists. split; [reflexivity | repeat constructor].
    - intros Hr. inversion Hr; subst; clear Hr.
      split; [lia|]. split; [|split; reflexivity].
      exists []. rewrite app_nil_r. split; [reflexivity | constructor]. }
  destruct (if decide (state c2 = ConnectingState)
            then waitForConnected (int (msecs - (clock c2 - start))) c2
            else Returns tt c2) as [[] c3| |]; cbn [bind]; try discriminate.
  destruct (H3 c3 eq_refl) as (Hclk3 & (cs3 & Hcalls3 & Hw3) & Hn3 & Hi3). clear H3.
  assert (Hcalls : exists cs, calls c3 = calls c ++ cs
                              /\ Forall (fun call => isWrite call = false) cs).
  { exists (cs2 ++ cs3). rewrite Hcalls3, Hcalls2, <- app_assoc.
    split; [reflexivity|]. apply Forall_app. split; assumption. }
  destruct (decide (state c3 = ConnectedState)) as [Hconn|Hconn].
  - intros Hr. inversion Hr; subst; clear Hr.
    split; [exact Hconn|]. split; [exact Hcalls|]. split; [lia|]. split; congruence.
  - destruct (Z.leb_spec msecs (clock c3 - start)) as [Hle|Hgt].
    + intros Hr. inversion Hr; subst; clear Hr.
      split; [split; assumption|].
      split; [exact Hcalls|]. split; [lia|]. split; congruence.
    + intros Hr. apply IH in Hr.
      destruct Hr as (Hres & (cs & Hc & HF) & Hclk & Hn & Hi).
      split; [exact Hres|].
      destruct Hcalls as (cs' & Hc' & HF').
      split.
      * exists (cs' ++ cs). rewrite Hc, Hc', <- app_assoc.
        split; [reflexivity|]. apply Forall_app. split; assumption.
      * split; [lia|]. split; congruence.
Qed.

(** The loop ends: every turn sleeps eight milliseconds at least, and a
    turn that finds the budget used up returns. *)
Lemma connectLoop_fuel fuel msecs start c :
  msecs - (clock c - start) <= 8 * Z.of_nat fuel -> (0 < fuel)%nat ->
  connectLoop fuel msecs start c <> OutOfFuel.
Proof.
  revert c. induction fuel as [|fuel IH]; intros c Hb Hpos; [lia|].
  cbn [connectLoop].
  set (c1 := randomSleep c).
  set (c2 := if decide (state c1 <> ConnectingState) then connectToServer c1 else c1).
  assert (Hclk2 : clock c + 8 <= clock c2).
  { pose proof (randomSleep_clock c). subst c2 c1. destruct (decide _); cbn in *; lia. }
  clearbody c2. clear c1.
  destruct (decide (state c2 = ConnectingState)).
  - unfold waitForConnected.
    destruct (hd None (connectWaits (world c2))) as [[took after]|]; [|discriminate].
    cbn [bind].
    match goal with |- context [decide (state ?x = ConnectedState)] => set (c3 := x) end.
    destruct (decide (state c3 = ConnectedState)); [discriminate|].
    destruct (Z.leb_spec msecs (clock c3 - start)); [discriminate|].
    apply IH; subst c3; cbn in *; lia.
  - cbn [bind].
    destruct (decide (state c2 = ConnectedState)); [discriminate|].
    destruct (Z.leb_spec msecs (clock c2 - start)); [discriminate|].
    apply IH; lia.
Qed.

Section WithChecksum.

Context `{QChecksum}.

(** C10.  Called with the socket already connected, [connectToPrimary]
    returns true at once, whatever the timeout and the connection type: the
    state is what it was, so no frame was written and no acknowledgement
    awaited. *)
Theorem already_connected fuel msecs connectionType c :
  socket c = Some ConnectedState ->
  connectToPrimary fuel msecs connectionType c = Returns true c.
Proof.
  intros Hs. unfold connectToPrimary. rewrite Hs.
  destruct (decide (state c = ConnectedState)) as [_|Hn]; [reflexivity|].
  unfold state in Hn. rewrite Hs in Hn. contradiction.
Qed.

(** With fuel for the turns the budget allows, the model of the loop does
    not run out: [connectToPrimary] returns, or blocks in a wait that never
    returns. *)
Lemma connectToPrimary_fuel fuel msecs connectionType c :
  (Z.to_nat (msecs / 8) + 1 <= fuel)%nat ->
  connectToPrimary fuel msecs connectionType c <> OutOfFuel.
Proof.
  intros Hfuel. unfold connectToPrimary.
  match goal with |- context [decide (state ?x = ConnectedState)] => set (c0 := x) end.
  assert (Hclk : clock c0 = clock c) by (subst c0; destruct (socket c); reflexivity).
  destruct (decide (state c0 = ConnectedState)); [discriminate|].
  pose proof (connectLoop_fuel fuel msecs (clock c) c0) as Hloop.
  destruct (connectLoop fuel msecs (clock c) c0) as [connected c1| |] eqn:E; cbn [bind].
  - destruct connected; cbn [negb]; [|discriminate].
    unfold writeConfirmedMessage, writeConfirmedFrame, waitForReadyRead. cbn.
    destruct (hd None (readWaits (world c1))) as [[took ready]|]; cbn; [|discriminate].
    destruct ready; cbn; [|discriminate].
    match goal with |- context [hd None ?l] => destruct (hd None l) as [[took' ready']|] end;
      cbn; [|discriminate].
    destruct ready'; discriminate.
  - discriminate.
  - exfalso. apply Hloop; [|lia|reflexivity].
    rewrite Hclk.
    destruct (Z.le_gt_cases 0 msecs) as [Hpos|Hneg].
    + pose proof (Z.div_mod msecs 8 ltac:(lia)) as Hdm.
      pose proof (Z.mod_pos_bound msecs 8 ltac:(lia)).
      assert (0 <= msecs / 8) by (apply Z.div_pos; lia).
      lia.
    + lia.
Qed.


End WithChecksum.

(** *** Evaluation on concrete runs *)


(** C10 on [connectedClient]. *)
Lemma already_connected_witness :
  connectToPrimary (H := crc16_checksum) 0 1000 NewInstance connectedClient
  = Returns true connectedClient.
Proof.
  apply (already_connected (H := crc16_checksum) 0 1000 NewInstance connectedClient).
  reflexivity.
Defined.


(** *** The loop and the frames, further *)

(** Fuel beyond what the loop uses changes nothing. *)
Lemma connectLoop_more_fuel fuel more msecs start c :
  connectLoop fuel msecs start c <> OutOfFuel ->
  connectLoop (fuel + more) msecs start c = connectLoop fuel msecs start c.
Proof.
  revert c. induction fuel as [|fuel IH]; intros c Hne; [contradiction|].
  cbn [connectLoop Nat.add] in *.
  set (c1 := randomSleep c) in *.
  set (c2 := if decide (state c1 <> ConnectingState) then connectToServer c1 else c1) in *.
  destruct (if decide (state c2 = ConnectingState)
            then waitForConnected (int (msecs - (clock c2 - start))) c2
            else Returns tt c2) as [[] c3| |]; cbn [bind] in *; try reflexivity.
  destruct (decide (state c3 = ConnectedState)); [reflexivity|].
  destruct (msecs <=? clock c3 - start); [reflexivity|].
  now apply IH.
Qed.

Lemma framesWritten_app cs1 cs2 :
  framesWritten (cs1 ++ cs2) = framesWritten cs1 ++ framesWritten cs2.
Proof. apply omap_app. Qed.

Lemma framesWritten_attempts cs :
  Forall (fun call => isWrite call = false) cs -> framesWritten cs = [].
Proof.
  induction 1 as [|call cs Hc _ IH]; [reflexivity|].
  destruct call; try discriminate; exact IH.
Qed.

Lemma framesWritten_frameCalls msecs msg took ready :
  framesWritten (frameCalls msecs msg took ready) = [msg].
Proof. destruct ready; reflexivity. Qed.

Section EndToEnd.

Context `{QChecksum}.

(** X13.  The loop of [connectToPrimary] ends.  Every turn sleeps eight
    milliseconds at least and a turn that finds the timeout reached
    returns, so [msecs / 8 + 1] turns are enough: with that much fuel the
    call returns or blocks in a wait that never returns, and more fuel
    gives the same result. *)
Theorem connectToPrimary_ends fuel msecs connectionType c :
  (Z.to_nat (msecs / 8) + 1 <= fuel)%nat ->
  connectToPrimary fuel msecs connectionType c <> OutOfFuel /\
  forall more,
    connectToPrimary (fuel + more) msecs connectionType c
    = connectToPrimary fuel msecs connectionType c.
Proof.
  intros Hfuel. split; [now apply connectToPrimary_fuel|].
  intros more. unfold connectToPrimary.
  match goal with |- context [decide (state ?x = ConnectedState)] => set (c0 := x) end.
  assert (Hclk : clock c0 = clock c) by (subst c0; destruct (socket c); reflexivity).
  destruct (decide (state c0 = ConnectedState)); [reflexivity|].
  rewrite connectLoop_more_fuel; [reflexivity|].
  apply connectLoop_fuel; [|lia].
  rewrite Hclk.
  destruct (Z.le_gt_cases 0 msecs) as [Hpos|Hneg]; [|lia].
  pose proof (Z.div_mod msecs 8 ltac:(lia)) as Hdm.
  pose proof (Z.mod_pos_bound msecs 8 ltac:(lia)).
  assert (0 <= msecs / 8) by (apply Z.div_pos; lia).
  lia.
Qed.

(** X14.  Every return of [writeConfirmedMessage].  The header frame is
    written and its acknowledgement awaited for [msecs]; if that wait
    fails, the call returns false and the message was never written.  Else
    the message is written and its acknowledgement awaited for what is left
    of [msecs] after the first wait, and the call returns what this second
    wait returns.  Nothing else is called, and the socket, the name and the
    instance number are left as they were. *)
Theorem writeConfirmedMessage_returns msecs msg c r c' :
  writeConfirmedMessage msecs msg c = Returns r c' ->
  socket c' = socket c /\ blockServerName c' = blockServerName c /\
  instanceNumber c' = instanceNumber c /\
  exists took1,
    0 <= took1 /\
    ((r = false /\ clock c' = clock c + took1 /\
      calls c' = calls c ++ frameCalls (int msecs) (headerFrame msg) took1 false)
     \/ (exists took2,
           0 <= took2 /\ clock c' = clock c + took1 + took2 /\
           calls c' = calls c ++ frameCalls (int msecs) (headerFrame msg) took1 true
                              ++ frameCalls (int (msecs - took1)) msg took2 r)).
Proof.
  unfold writeConfirmedMessage. cbv zeta. intros Hr.
  replace (msecs - (clock c - clock c)) with msecs in Hr by lia.
  destruct (writeConfirmedFrame (int msecs) (headerFrame msg) c) as [ok c1| |] eqn:E1;
    cbn [bind] in Hr; try discriminate.
  apply writeConfirmedFrame_returns in E1.
  destruct E1 as (took1 & Ht1 & Hcalls1 & Hclk1 & Hs1 & Hn1 & Hi1).
  destruct ok; cbn [negb] in Hr.
  - replace (clock c1 - clock c) with took1 in Hr by lia.
    apply writeConfirmedFrame_returns in Hr.
    destruct Hr as (took2 & Ht2 & Hcalls2 & Hclk2 & Hs2 & Hn2 & Hi2).
    split; [congruence|]. split; [congruence|]. split; [congruence|].
    exists took1. split; [exact Ht1|]. right.
    exists took2. split; [exact Ht2|]. split; [lia|].
    now rewrite Hcalls2, Hcalls1, <- app_assoc.
  - inversion Hr; subst r c'.
    split; [exact Hs1|]. split; [exact Hn1|]. split; [exact Hi1|].
    exists took1. split; [exact Ht1|]. left. now repeat split.
Qed.

(** The frames of a call that connected and returned true. *)
Lemma connectToPrimary_true_frames fuel msecs connectionType c c' :
  connectToPrimary fuel msecs connectionType c = Returns true c' ->
  socket c <> Some ConnectedState ->
  exists attempts m1 took1 m2 took2,
    Forall (fun call => isWrite call = false) attempts /\
    calls c' = calls c ++ attempts
               ++ frameCalls m1 (headerFrame (initMessage (blockServerName c) connectionType
                                                          (instanceNumber c))) took1 true
               ++ frameCalls m2 (initMessage (blockServerName c) connectionType
                                             (instanceNumber c)) took2 true.
Proof.
  unfold connectToPrimary.
  match goal with |- context [decide (state ?x = ConnectedState)] => set (c0 := x) end.
  assert (H0 : calls c0 = calls c /\ blockServerName c0 = blockServerName c /\
               instanceNumber c0 = instanceNumber c /\ state c0 = state c).
  { subst c0. destruct (socket c) eqn:Es; cbn; unfold state; rewrite ?Es; cbn;
      repeat split; reflexivity. }
  destruct H0 as (Hcalls0 & Hn0 & Hi0 & Hst0).
  destruct (decide (state c0 = ConnectedState)) as [Hconn|Hconn].
  - intros _ Hs. exfalso. apply Hs. rewrite Hst0 in Hconn. unfold state in Hconn.
    destruct (socket c) as [st|]; cbn in Hconn; [now subst | discriminate].
  - intros Hr _.
    destruct (connectLoop fuel msecs (clock c) c0) as [connected c1| |] eqn:Eloop;
      cbn [bind] in Hr; try discriminate.
    apply connectLoop_returns in Eloop.
    destruct Eloop as (_ & (attempts & Hcalls1 & Hnw) & _ & Hn1 & Hi1).
    destruct connected; cbn [negb] in Hr; [|discriminate].
    apply writeConfirmedMessage_true in Hr.
    destruct Hr as (m1 & took1 & m2 & took2 & Hcalls2).
    exists attempts, m1, took1, m2, took2. split; [exact Hnw|].
    rewrite Hcalls2, Hcalls1, Hcalls0, Hn1, Hn0, Hi1, Hi0, <- !app_assoc. reflexivity.
Qed.

(** X15.  The handshake from end to end.  What a call of
    [connectToPrimary] that connected and returned true wrote, arriving
    frame by frame on a new connection of a listener with the same name, is
    a header and a body this listener accepts: both are acknowledged, the
    connection is past its handshake and its entry holds the instance
    number of the caller. *)
Theorem handshake_end_to_end fuel msecs connectionType c c' new sock d :
  connectToPrimary fuel msecs connectionType c = Returns true c' ->
  socket c <> Some ConnectedState ->
  calls c' = calls c ++ new ->
  Listener.blockServerName d = blockServerName c ->
  0 <= instanceNumber c < 2 ^ 32 ->
  Z.of_nat (length (blockServerName c)) + 9 < 2 ^ 32 ->
  let d' := Listener.arrivals sock (framesWritten new)
              (Listener.slotConnectionEstablished sock d) in
  length (framesWritten new) = 2%nat /\
  Listener.stage (Listener.info sock d') = Listener.StageConnectedHeader /\
  Listener.instanceId (Listener.info sock d') = instanceNumber c /\
  Listener.acks sock d' = Some [x0a; x0a] /\
  Listener.emitted d'
  = Listener.emitted d
    ++ if Listener.notifies (Listener.options d) (connectionTypeValue connectionType)
       then [Listener.instanceStarted] else [].
Proof.
  intros Hr Hs Hcalls Hname Hnum Hlen d'.
  destruct (connectToPrimary_true_frames fuel msecs connectionType c c' Hr Hs)
    as (attempts & m1 & took1 & m2 & took2 & Hnw & Hc').
  rewrite Hcalls in Hc'. apply app_inv_head in Hc'.
  assert (Hf : framesWritten new
               = [headerFrame (initMessage (Listener.blockServerName d) connectionType
                                           (instanceNumber c));
                  initMessage (Listener.blockServerName d) connectionType
                              (instanceNumber c)]).
  { rewrite Hc', Hname, !framesWritten_app, !framesWritten_frameCalls,
      (framesWritten_attempts attempts Hnw). reflexivity. }
  rewrite <- Hname in Hlen.
  pose proof (ListenerFacts.handshake_accepted sock d connectionType (instanceNumber c)
                [headerFrame (initMessage (Listener.blockServerName d) connectionType
                                          (instanceNumber c))]
                [initMessage (Listener.blockServerName d) connectionType
                             (instanceNumber c)]
                Hnum Hlen) as Hacc.
  assert (Hd' : d' = Listener.arrivals sock
                       [initMessage (Listener.blockServerName d) connectionType
                                    (instanceNumber c)]
                       (Listener.arrivals sock
                          [headerFrame (initMessage (Listener.blockServerName d)
                                                    connectionType (instanceNumber c))]
                          (Listener.slotConnectionEstablished sock d)))
    by (subst d'; now rewrite Hf).
  rewrite <- Hd' in Hacc.
  assert (Hconn : Listener.conn sock (Listener.blockServerName d) (Listener.options d)
                    (Listener.mkInfo
                       (Z.of_nat (length (initMessage (Listener.blockServerName d)
                                                      connectionType (instanceNumber c))))
                       (instanceNumber c) Listener.StageConnectedHeader)
                    (Listener.mkSocket [] [x0a; x0a] true)
                    (Listener.emitted d
                     ++ if Listener.notifies (Listener.options d)
                                             (connectionTypeValue connectionType)
                        then [Listener.instanceStarted] else [])
                    d').
  { apply Hacc.
    - repeat constructor. intros Hnil.
      pose proof (length_headerFrame (initMessage (Listener.blockServerName d)
                                                  connectionType (instanceNumber c))) as Hl.
      rewrite Hnil in Hl. discriminate.
    - repeat constructor. intros Hnil.
      pose proof (length_initMessage (Listener.blockServerName d) connectionType
                                     (instanceNumber c)) as Hl.
      rewrite Hnil in Hl. cbn in Hl. lia.
    - cbn [concat]. apply app_nil_r.
    - cbn [concat]. apply app_nil_r. }
  split; [now rewrite Hf|].
  rewrite (ListenerFacts.conn_info _ _ _ _ _ _ _ Hconn),
    (ListenerFacts.conn_acks _ _ _ _ _ _ _ Hconn),
    (ListenerFacts.conn_emitted _ _ _ _ _ _ _ Hconn).
  now repeat split.
Qed.

End EndToEnd.


(** X13 on [lateClient]: a timeout of 9 ms and fuel for two turns. *)
Lemma connectToPrimary_ends_witness :
  connectToPrimary (H := crc16_checksum) 2 9 SecondaryInstance lateClient <> OutOfFuel /\
  forall more,
    connectToPrimary (H := crc16_checksum) (2 + more) 9 SecondaryInstance lateClient
    = connectToPrimary (H := crc16_checksum) 2 9 SecondaryInstance lateClient.
Proof.
  apply (connectToPrimary_ends (H := crc16_checksum) 2 9 SecondaryInstance lateClient).
  vm_compute. constructor.
Defined.

(** X14 on [unackedClient]: the header is acknowledged after 2 ms, the
    message is written with 98 ms left and not acknowledged. *)
Lemma writeConfirmedMessage_returns_witness :
  socket unackedClientAfter = socket unackedClient /\
  blockServerName unackedClientAfter = blockServerName unackedClient /\
  instanceNumber unackedClientAfter = instanceNumber unackedClient /\
  exists took1,
    0 <= took1 /\
    ((false = false /\ clock unackedClientAfter = clock unackedClient + took1 /\
      calls unackedClientAfter
      = calls unackedClient ++ frameCalls (int 100) (headerFrame [x68; x69]) took1 false)
     \/ (exists took2,
           0 <= took2 /\ clock unackedClientAfter = clock unackedClient + took1 + took2 /\
           calls unackedClientAfter
           = calls unackedClient
             ++ frameCalls (int 100) (headerFrame [x68; x69]) took1 true
             ++ frameCalls (int (100 - took1)) [x68; x69] took2 false)).
Proof.
  apply (writeConfirmedMessage_returns 100 [x68; x69] unackedClient false
           unackedClientAfter).
  vm_compute. reflexivity.
Defined.

(** X15 on the run of [lateClient] and a new connection of
    [Listener.sampleServer]. *)
Lemma handshake_end_to_end_witness :
  let d' := Listener.arrivals (H := crc16_checksum) 0
              (framesWritten (calls lateClientAfter))
              (Listener.slotConnectionEstablished 0 Listener.sampleServer) in
  length (framesWritten (calls lateClientAfter)) = 2%nat /\
  Listener.stage (Listener.info 0 d') = Listener.StageConnectedHeader /\
  Listener.instanceId (Listener.info 0 d') = 7 /\
  Listener.acks 0 d' = Some [x0a; x0a] /\
  Listener.emitted d' = [].
Proof.
  apply (handshake_end_to_end (H := crc16_checksum) 2 9 SecondaryInstance lateClient
           lateClientAfter (calls lateClientAfter) 0 Listener.sampleServer);
    try (vm_compute; reflexivity);
    try (vm_compute; discriminate);
    try (vm_compute; split; [discriminate | reflexivity]).
Defined.


End ConnectorFacts.

(** ** The rendezvous name *)

Module RendezvousFacts.
Import Rendezvous.

Example toBase64_Man : toBase64 [x4d; x61; x6e] = [x54; x57; x46; x75].
Proof. reflexivity. Qed.

Example toBase64_Ma : toBase64 [x4d; x61] = [x54; x57; x45; x3d].
Proof. reflexivity. Qed.

Example toBase64_M : toBase64 [x4d] = [x54; x51; x3d; x3d].
Proof. reflexivity. Qed.

Lemma indexOf_alphabet (n : nat) :
  (n < 64)%nat -> indexOf (nth n base64Alphabet x00) base64Alphabet = n.
Proof.
  intros Hn. do 64 (destruct n as [|n]; [reflexivity|]). lia.
Qed.

Lemma sextet_inj (x y : Z) :
  0 <= x < 64 -> 0 <= y < 64 -> sextet x = sextet y -> x = y.
Proof.
  intros Hx Hy Heq. unfold sextet in Heq.
  apply (f_equal (fun b => indexOf b base64Alphabet)) in Heq.
  rewrite !indexOf_alphabet in Heq by lia. lia.
Qed.

Lemma alphabet_no_underscore (n : nat) : nth n base64Alphabet x00 <> x5f.
Proof. do 64 (destruct n as [|n]; [discriminate|]). destruct n; discriminate. Qed.

Lemma alphabet_no_pad (n : nat) : nth n base64Alphabet x00 <> x3d.
Proof. do 64 (destruct n as [|n]; [discriminate|]). destruct n; discriminate. Qed.

Lemma byte_to_Z_inj (a b : byte) : byte_to_Z a = byte_to_Z b -> a = b.
Proof.
  intros Heq. rewrite <- (byte_to_Z_to_byte a), <- (byte_to_Z_to_byte b). now rewrite Heq.
Qed.

Lemma list_ind3 (P : list byte -> Prop) :
  P [] -> (forall a, P [a]) -> (forall a b, P [a; b]) ->
  (forall a b c rest, P rest -> P (a :: b :: c :: rest)) ->
  forall l, P l.
Proof.
  intros H0 H1 H2 H3 l.
  assert (Hall : forall n l, (length l < n)%nat -> P l).
  { clear l. induction n as [|n IH]; intros l Hl; [lia|].
    destruct l as [|a [|b [|c rest]]]; auto.
    apply H3. apply IH. cbn in Hl. lia. }
  apply (Hall (S (length l))). lia.
Qed.

Ltac byte_ranges :=
  repeat match goal with
         | |- context [byte_to_Z ?a] =>
             lazymatch goal with
             | _ : 0 <= byte_to_Z a < 256 |- _ => fail
             | _ => pose proof (byte_to_Z_range a)
             end
         | H : context [byte_to_Z ?a] |- _ =>
             lazymatch goal with
             | _ : 0 <= byte_to_Z a < 256 |- _ => fail
             | _ => pose proof (byte_to_Z_range a)
             end
         end.

Ltac sextets H :=
  apply sextet_inj in H; [| byte_ranges; Z.div_mod_to_equations; lia ..].

Lemma toBase64_inj (l1 l2 : list byte) : toBase64 l1 = toBase64 l2 -> l1 = l2.
Proof.
  revert l2. induction l1 as [|a|a b|a b c rest IH] using list_ind3;
    intros [|a' [|b' [|c' rest']]]; cbn [toBase64]; intros Heq;
    try discriminate; try reflexivity.
  - (* one byte against one byte *)
    injection Heq as H1 H2. sextets H1. sextets H2.
    f_equal. apply byte_to_Z_inj. byte_ranges. Z.div_mod_to_equations. lia.
  - (* one byte against two: the third character is the pad or is not *)
    injection Heq as _ _ H3. symmetry in H3. now apply alphabet_no_pad in H3.
  - injection Heq as _ _ H3 _. symmetry in H3. now apply alphabet_no_pad in H3.
  - injection Heq as _ _ H3. now apply alphabet_no_pad in H3.
  - injection Heq as H1 H2 H3. sextets H1. sextets H2. sextets H3.
    assert (byte_to_Z a = byte_to_Z a' /\ byte_to_Z b = byte_to_Z b')
      as [Ha Hb] by (byte_ranges; Z.div_mod_to_equations; lia).
    apply byte_to_Z_inj in Ha, Hb. now subst.
  - injection Heq as _ _ _ H4 _. symmetry in H4. now apply alphabet_no_pad in H4.
  - injection Heq as _ _ H3 _. now apply alphabet_no_pad in H3.
  - injection Heq as _ _ _ H4 _. now apply alphabet_no_pad in H4.
  - injection Heq as H1 H2 H3 H4 Hrest. sextets H1. sextets H2. sextets H3. sextets H4.
    assert (byte_to_Z a = byte_to_Z a' /\ byte_to_Z b = byte_to_Z b'
            /\ byte_to_Z c = byte_to_Z c')
      as (Ha & Hb & Hc) by (byte_ranges; Z.div_mod_to_equations; lia).
    apply byte_to_Z_inj in Ha, Hb, Hc. subst. f_equal. f_equal. f_equal.
    now apply IH.
Qed.

Lemma toBase64_no_underscore (l : list byte) : Forall (fun b => b <> x5f) (toBase64 l).
Proof.
  induction l as [|a|a b|a b c rest IH] using list_ind3; cbn [toBase64];
    repeat (apply Forall_cons; split;
            [first [apply alphabet_no_underscore | discriminate]|]);
    first [apply Forall_nil; exact I | assumption].
Qed.

Lemma replaceSlash_inj (l1 l2 : list byte) :
  Forall (fun b => b <> x5f) l1 -> Forall (fun b => b <> x5f) l2 ->
  replaceSlash l1 = replaceSlash l2 -> l1 = l2.
Proof.
  revert l2. induction l1 as [|a l1 IH]; intros [|a' l2] H1 H2 Heq;
    try discriminate; [reflexivity|].
  apply Forall_cons in H1 as [Ha H1]. apply Forall_cons in H2 as [Ha' H2].
  cbn in Heq. injection Heq as Hhd Htl.
  f_equal; [|now apply IH].
  destruct (Byte.eqb a x2f) eqn:Ea, (Byte.eqb a' x2f) eqn:Ea'.
  - apply Byte.byte_dec_bl in Ea, Ea'. congruence.
  - now subst a'.
  - now subst a.
  - exact Hhd.
Qed.

Section WithHash.

Context `{QCryptographicHash}.

(** C9, amended.  Two configurations that agree on the application name,
    the organisation name and domain, the extra application data, the
    options and, as far as the options select them, the version, the file
    path and the user name, get the same name.  Two names are equal exactly
    when the digests of the data added to the hash are equal: a difference
    in the inputs changes the name if and only if it changes that digest. *)
Theorem genBlockServerName_determined app1 appDataList1 options1 app2 appDataList2 options2 :
  (applicationName app1 = applicationName app2 ->
   organizationName app1 = organizationName app2 ->
   organizationDomain app1 = organizationDomain app2 ->
   appDataList1 = appDataList2 ->
   options1 = options2 ->
   (ExcludeAppVersion options1 = false -> applicationVersion app1 = applicationVersion app2) ->
   (ExcludeAppPath options1 = false -> applicationFilePath app1 = applicationFilePath app2) ->
   (User options1 = true -> username app1 = username app2) ->
   genBlockServerName app1 appDataList1 options1
   = genBlockServerName app2 appDataList2 options2)
  /\ (genBlockServerName app1 appDataList1 options1
      = genBlockServerName app2 appDataList2 options2
      <-> sha256 (hashedData app1 appDataList1 options1)
          = sha256 (hashedData app2 appDataList2 options2)).
Proof.
  split.
  - intros Hn Ho Hd Hl Hopt Hv Hp Hu. subst appDataList2 options2.
    unfold genBlockServerName. do 3 f_equal.
    unfold hashedData. rewrite Hn, Ho, Hd.
    destruct (ExcludeAppVersion options1); cbn [negb]; [|rewrite (Hv eq_refl)];
      (destruct (ExcludeAppPath options1); cbn [negb]; [|rewrite (Hp eq_refl)]);
      (destruct (User options1); [rewrite (Hu eq_refl)|]); reflexivity.
  - unfold genBlockServerName. split.
    + intros Heq. apply toBase64_inj.
      apply replaceSlash_inj; [apply toBase64_no_underscore .. | exact Heq].
    + intros Heq. now rewrite Heq.
Qed.

End WithHash.

(** C9, as stated, at these two: the inputs differ, and the names are the
    same whatever the hash function, as the same data is added to it. *)
Lemma run_together_inputs_share_name :
  applicationName appAbC <> applicationName appABc
  /\ organizationName appAbC <> organizationName appABc
  /\ forall (H : QCryptographicHash) (options : Options),
       genBlockServerName appAbC [] options = genBlockServerName appABc [] options.
Proof.
  split; [discriminate|]. split; [discriminate|].
  intros H options. unfold genBlockServerName. do 3 f_equal.
Qed.

(** *** The characters and the length of the name *)

Lemma sextet_in (n : Z) : 0 <= n < 64 -> In (sextet n) base64Alphabet.
Proof.
  intros Hn. unfold sextet. apply nth_In.
  change (length base64Alphabet) with 64%nat. lia.
Qed.

Lemma toBase64_chars (l : list byte) :
  Forall (fun b => In b base64Alphabet \/ b = x3d) (toBase64 l).
Proof.
  induction l as [|a|a b|a b c rest IH] using list_ind3; cbn [toBase64];
    repeat (apply Forall_cons; split;
            [first [ now right
                   | left; apply sextet_in; byte_ranges; Z.div_mod_to_equations; lia ]|]);
    first [apply Forall_nil; exact I | assumption].
Qed.

Lemma length_toBase64 (l : list byte) :
  length (toBase64 l) = (4 * ((length l + 2) / 3))%nat.
Proof.
  induction l as [|a|a b|a b c rest IH] using list_ind3; try reflexivity.
  cbn [toBase64 length]. rewrite IH.
  replace (S (S (S (length rest))) + 2)%nat with ((length rest + 2) + 1 * 3)%nat by lia.
  rewrite Nat.div_add by lia. lia.
Qed.

Lemma replaceSlash_no_slash (l : list byte) : Forall (fun b => b <> x2f) (replaceSlash l).
Proof.
  unfold replaceSlash. apply Forall_map. apply Forall_forall. intros b _. cbn.
  destruct (Byte.eqb b x2f) eqn:E; [discriminate|].
  intros Hb. rewrite (Byte.byte_dec_lb Hb) in E. discriminate.
Qed.

(** The data added to the hash holds the entries of the list run
    together, whether the list is empty or not. *)
Lemma hashedData_concat app appDataList1 appDataList2 options :
  concat appDataList1 = concat appDataList2 ->
  hashedData app appDataList1 options = hashedData app appDataList2 options.
Proof.
  intros Hc. unfold hashedData. cbv zeta.
  assert (Hm : forall (pre : list byte) l,
             match l with [] => pre | _ => pre ++ concat l end = pre ++ concat l)
    by (intros pre [|x l]; [cbn; now rewrite app_nil_r | reflexivity]).
  now rewrite !Hm, Hc.
Qed.

Section NameFacts.

Context `{QCryptographicHash}.

(** X17.  Whatever the hash function and the inputs, the name holds no
    ['/']: every character is one of the Base64 alphabet with ['_'] in the
    place of ['/'], or the pad ['=']; and the name has four characters for
    every three bytes of the digest, the last group filled up. *)
Theorem blockServerName_characters app appDataList options :
  let name := genBlockServerName app appDataList options in
  Forall (fun b => b <> x2f) name /\
  Forall (fun b => In b (replaceSlash base64Alphabet) \/ b = x3d) name /\
  length name
  = (4 * ((length (sha256 (hashedData app appDataList options)) + 2) / 3))%nat.
Proof.
  intros name. subst name. unfold genBlockServerName.
  split; [apply replaceSlash_no_slash|]. split.
  - unfold replaceSlash at 1. apply Forall_map.
    eapply Forall_impl; [apply toBase64_chars|].
    intros b [Hb | ->]; cbv beta; [left | now right].
    exact (in_map (fun b => if Byte.eqb b x2f then x5f else b) base64Alphabet b Hb).
  - unfold replaceSlash. rewrite length_map. apply length_toBase64.
Qed.

(** X18.  The extra application data enters the name run together: two
    entries added one after the other give the name one entry holding both
    gives, and an empty entry gives the name no entry gives. *)
Theorem app_data_run_together app appDataList options x y :
  genBlockServerName app (addAppData y (addAppData x appDataList)) options
  = genBlockServerName app (addAppData (x ++ y) appDataList) options
  /\ genBlockServerName app (addAppData [] appDataList) options
     = genBlockServerName app appDataList options.
Proof.
  unfold genBlockServerName, addAppData. split; do 3 f_equal; apply hashedData_concat.
  - rewrite !concat_app. cbn. now rewrite !app_nil_r, app_assoc.
  - rewrite concat_app. cbn. now rewrite app_nil_r.
Qed.

End NameFacts.

End RendezvousFacts.
